(** * GraphProcessing: pipelines, nodes and layers of [Graph/graph.py]

    A shallow embedding of the execution core of the repository
    (class [Pipe], the [Node] variants, [Layer]) and of the stages of
    [example.py], with the properties of the specification stated and
    proved over it.

    Modelling conventions.
    - Python values are immutable trees ([value]); a [dict] with string
      keys is a [gmap string value], so equality of mappings is Python's
      [==] (insertion order is not observable through it).
    - A stage is a callable, with or without a [__name__].  What it
      changes in place in the values it receives is followed in the bag
      of the pipe that called it, which holds those values.  The data of
      the nodes, the histories and the entries of a trace share values
      with a bag through the shallow [copy()] of the source; changes in
      place are not followed into them, and the statements about them
      are for stages that change nothing in place ([pure]).
    - In [custom_merge], which extends lists in place, the lists that the
      two mappings hold are objects of a heap.
    - A [ProcessingNode] owns its [Pipe]: the pipe is part of the node.
    - Nodes live in a store indexed by their [name], the hash key the
      source gives them; [inputs] and [outputs] are sets of names.  A
      name that is not in the store is a dead weak reference.
    - The iteration order of a [WeakSet] is not fixed by the language: it
      is a parameter [order] of the development, only known to enumerate
      the set.
    - Python's recursion limit is the [depth] argument of [process];
      exhausting it raises [RecursionError], as the interpreter does. *)

From Stdlib Require Import ZArith Lia.
From stdpp Require Import base gmap sets list strings.

Local Set Warnings "-clear-no-such-hyp".

Local Open Scope Z_scope.
Local Open Scope string_scope.
Local Open Scope list_scope.

(** ** Values *)

#[warnings="-register-all"]
Inductive value : Type :=
| VNone
| VInt (z : Z)
| VStr (s : string)
| VList (l : list value)
| VDict (d : gmap string value).

(** The exceptions raised, all of them instances of [Exception]. *)
Inductive exn : Type :=
| TypeError
| ValueError
| AttributeError
| KeyError
| NotImplementedError
| RecursionError
| UserError (msg : string).

(** [bool(d)] for an optional mapping: [None] and [{}] are falsy. *)
Definition truthy (d : option (gmap string value)) : bool :=
  match d with
  | None => false
  | Some m => negb (bool_decide (m = ∅))
  end.

(** [d1.update(d2)]: the entries of [d2] overwrite those of [d1]. *)
Definition update (d1 d2 : gmap string value) : gmap string value := d2 ∪ d1.

(** ** Pipe *)

(** A stage is any callable.  It need not have a [__name__]: a
    [functools.partial] or an instance with [__call__] has none.  Called
    with the entries of the bag as keyword arguments it returns a value
    or raises, and it may have changed in place the lists and mappings it
    was handed, which are the bag's own: besides the outcome, [call]
    gives, per key, the new content of each value the stage changed. *)
Record stage : Type := Stage {
  __name__ : option string;
  call : gmap string value → (exn + value) * gmap string value
}.

(** A function defined with [def] or [lambda] that changes nothing in
    place. *)
Definition def (name : string) (body : gmap string value → exn + value) : stage :=
  Stage (Some name) (λ kw, (body kw, ∅)).

(** A change in place leaves the object where it is: a list stays a
    list, a mapping a mapping, with a new content; nothing else can be
    changed in place. *)
Definition in_place (old new : value) : value :=
  match old, new with
  | VList _, VList l => VList l
  | VDict _, VDict d => VDict d
  | _, _ => old
  end.

(** The bag after a stage has changed values in place: the same keys. *)
Definition imprint (bag changes : gmap string value) : gmap string value :=
  map_imap (λ k v, Some (from_option (in_place v) v (changes !! k))) bag.

Record Pipe : Type := MkPipe {
  value_ : gmap string value;
  trace : bool;
  functions : list stage
}.

Definition trace_entry (fname : string) (output : gmap string value) : value :=
  VDict (<["function" := VStr fname]> (<["output" := VDict output]> ∅)).

(** [Pipe.__init__]: the snapshot [self.value.copy()] is taken before the
    key ["trace"] is assigned. *)
Definition Pipe_init (v : gmap string value) (tr : bool) (fs : list stage) : Pipe :=
  if tr
  then MkPipe (<["trace" := VList [trace_entry "input" v]]> v) tr fs
  else MkPipe v tr fs.

(** [Pipe.__or__] with a callable operand. *)
Definition Pipe_or (p : Pipe) (f : stage) : Pipe :=
  MkPipe (value_ p) (trace p) (functions p ++ [f]).

(** How the iteration of [Pipe.__call__] for one stage ends: normally;
    in the [except] block, which returns [None]; or with an exception
    that leaves the [except] block and so the call. *)
Inductive status : Type :=
| Done
| Caught (e : exn)
| Escaped (e : exn).

(** The [except] block: its log message reads [func.__name__], which
    raises [AttributeError] for a callable that has none. *)
Definition handler (f : stage) (e : exn) : status :=
  match __name__ f with
  | Some _ => Caught e
  | None => Escaped AttributeError
  end.

(** One iteration of [Pipe.__call__]: the bag after it and how it ended.
    The update of the bag comes before the append to the trace; the
    append reads the trace of the bag and [func.__name__], and the
    message of the [ValueError] reads [func.__name__] too, all inside
    the [try]. *)
Definition try_stage (tr : bool) (bag : gmap string value) (f : stage)
  : gmap string value * status :=
  let '(res, changes) := call f bag in
  let bag0 := imprint bag changes in
  match res with
  | inl e => (bag0, handler f e)
  | inr (VDict result) =>
      let bag1 := update bag0 result in
      if tr then
        match bag1 !! "trace" with
        | None => (bag1, handler f KeyError)
        | Some (VList l) =>
            match __name__ f with
            | Some name =>
                (<["trace" := VList (l ++ [trace_entry name result])]> bag1, Done)
            | None => (bag1, handler f AttributeError)
            end
        | Some _ => (bag1, handler f AttributeError)
        end
      else (bag1, Done)
  | inr _ => (bag0, handler f ValueError)
  end.

(** What one call of [Pipe.__call__] does: the pipe afterwards, the value
    returned ([None] for Python's [None], also when the call raised), the
    exception that the call raised, if any, and, as a ghost record, the
    stages invoked with the keyword arguments each one received. *)
Record run_out : Type := RunOut {
  pipe_after : Pipe;
  returned : option (gmap string value);
  raised : option exn;
  invoked : list (option string * gmap string value)
}.

Fixpoint run_loop (tr : bool) (bag : gmap string value) (fs : list stage)
  : gmap string value * option (gmap string value) * option exn
    * list (option string * gmap string value) :=
  match fs with
  | [] => (bag, Some bag, None, [])
  | f :: rest =>
      match try_stage tr bag f with
      | (bag', Caught _) => (bag', None, None, [(__name__ f, bag)])
      | (bag', Escaped e) => (bag', None, Some e, [(__name__ f, bag)])
      | (bag', Done) =>
          let '(b, r, x, log) := run_loop tr bag' rest in
          (b, r, x, (__name__ f, bag) :: log)
      end
  end.

Definition Pipe_call (p : Pipe) : run_out :=
  let '(b, r, x, log) := run_loop (trace p) (value_ p) (functions p) in
  RunOut (MkPipe b (trace p) (functions p)) r x log.

(** ** Nodes *)

(** What a mapping handed to [custom_merge] holds under a key: a value,
    or a list object of the heap, which several keys of the two mappings
    can hold at once.  A list given as a value is a list object that
    nothing else holds.  What a list contains are values. *)
Inductive entry : Type :=
| Val (v : value)
| Ref (r : nat).

(** [isinstance(e, list)], with the content of the list. *)
Definition as_list (h : gmap nat (list value)) (e : entry) : option (list value) :=
  match e with
  | Ref r => Some (default [] (h !! r))
  | Val (VList l) => Some l
  | Val _ => None
  end.

(** The value an entry stands for, given the contents of the heap. *)
Definition entry_value (h : gmap nat (list value)) (e : entry) : value :=
  match e with
  | Val v => v
  | Ref r => VList (default [] (h !! r))
  end.

(** [merged[key].extend(...)] and [merged[key].append(...)]: the list
    object under [key] gets the content [l] in place.  [merged] is a
    shallow copy of [dict1], so the object is [dict1]'s as well. *)
Definition set_content (h : gmap nat (list value)) (dict1 merged : gmap string entry)
    (key : string) (m : entry) (l : list value)
  : gmap nat (list value) * gmap string entry * gmap string entry :=
  match m with
  | Ref r => (<[r := l]> h, dict1, merged)
  | Val _ => (h, <[key := Val (VList l)]> dict1, <[key := Val (VList l)]> merged)
  end.

(** One iteration of [for key, value in dict2.items()]. *)
Definition merge_entry (key : string) (v : entry)
    (st : gmap nat (list value) * gmap string entry * gmap string entry)
  : gmap nat (list value) * gmap string entry * gmap string entry :=
  let '(h, dict1, merged) := st in
  match merged !! key with
  | Some m =>
      match as_list h m, as_list h v with
      | Some lm, Some lv => set_content h dict1 merged key m (lm ++ lv)
      | Some lm, None => set_content h dict1 merged key m (lm ++ [entry_value h v])
      | None, Some lv =>
          (h, dict1, <[key := Val (VList ([entry_value h m] ++ lv))]> merged)
      | None, None =>
          (h, dict1, <[key := Val (VList [entry_value h m; entry_value h v])]> merged)
      end
  | None => (h, dict1, <[key := v]> merged)
  end.

(** [MixerNode.custom_merge], on the heap [h] of the list objects.
    [dict2] is given in the order of [dict2.items()], its keys distinct.
    The result is the heap, [dict1] and the merged mapping afterwards:
    [extend] and [append] change in place a list that [dict1] holds. *)
Definition custom_merge (h : gmap nat (list value)) (dict1 : gmap string entry)
    (dict2 : list (string * entry))
  : gmap nat (list value) * gmap string entry * gmap string entry :=
  foldl (λ st kv, merge_entry kv.1 kv.2 st) (h, dict1, dict1) dict2.

(** The contents of a mapping of entries. *)
Definition contents (h : gmap nat (list value)) (d : gmap string entry)
  : gmap string value :=
  entry_value h <$> d.

(** The subclasses of [Node], with the fields each one adds; [BaseNode]
    is an instance of [Node] itself. *)
Inductive variant : Type :=
| BaseNode
| DataNode (data_history : list (option (gmap string value)))
| ProcessingNode (pipeline : option Pipe)
| MixerNode.

Record Node : Type := MkNode {
  data : option (gmap string value);
  inputs : gset string;
  outputs : gset string;
  kind : variant
}.

(** The objects of a run, by name, and the ghost list of the [process]
    calls entered so far, oldest first. *)
Record world : Type := World {
  nodes : gmap string Node;
  calls : list string
}.

Definition data_of (w : world) (n : string) : option (gmap string value) :=
  nodes w !! n ≫= data.

Definition set_data (d : option (gmap string value)) (nd : Node) : Node :=
  MkNode d (inputs nd) (outputs nd) (kind nd).

Definition set_kind (k : variant) (nd : Node) : Node :=
  MkNode (data nd) (inputs nd) (outputs nd) k.

Definition assign_data (w : world) (o : string) (d : option (gmap string value)) : world :=
  World (alter (set_data d) o (nodes w)) (calls w).

Definition enter (w : world) (n : string) : world :=
  World (nodes w) (calls w ++ [n]).

(** [self.data.copy() if self.data else None], of [DataNode] and
    [ProcessingNode]. *)
Definition copy_if_truthy (d : option (gmap string value))
  : exn + option (gmap string value) :=
  inr (if truthy d then d else None).

(** [self.data.copy()], of [MixerNode]. *)
Definition copy_always (d : option (gmap string value))
  : exn + option (gmap string value) :=
  match d with
  | Some m => inr (Some m)
  | None => inl AttributeError
  end.

(** [weakref.WeakSet] defines no [__getitem__]: subscripting it raises. *)
Definition WeakSet_getitem (ws : gset string) (i : nat) : exn + string :=
  inl TypeError.

(** The loop [for output in self.outputs: output.data = ...; output.process()],
    over the outputs in iteration order.  [self.data] is read again at
    every iteration; a dead weak reference is not iterated; an exception
    leaving [output.process()] leaves the loop. *)
Fixpoint push (proc : world → string → world * option exn)
    (copy : option (gmap string value) → exn + option (gmap string value))
    (self : string) (outs : list string) (w : world) : world * option exn :=
  match outs with
  | [] => (w, None)
  | o :: rest =>
      match nodes w !! o with
      | None => push proc copy self rest w
      | Some _ =>
          match copy (data_of w self) with
          | inl e => (w, Some e)
          | inr d =>
              match proc (assign_data w o d) o with
              | (w', Some e) => (w', Some e)
              | (w', None) => push proc copy self rest w'
              end
          end
      end
  end.

Section Process.

(** The order in which a [WeakSet] is iterated. *)
Variable order : gset string → list string.
Hypothesis order_perm : ∀ X : gset string, order X ≡ₚ elements X.

(** [DataNode.process], after the call has been entered. *)
Definition DataNode_process (proc : world → string → world * option exn)
    (w : world) (self : string) (nd : Node)
    (data_history : list (option (gmap string value))) : world * option exn :=
  let w1 :=
    match data nd with
    | Some d =>
        World (alter (set_kind (DataNode (data_history ++ [Some d]))) self (nodes w))
              (calls w)
    | None => w
    end in
  push proc copy_if_truthy self (order (outputs nd)) w1.

(** [ProcessingNode.process].  The pipeline is owned by the node: its bag
    after the run is stored back in the node.  An exception that leaves
    the run leaves [process] before anything is pushed.  The data that
    a failed run leaves in the node is the mapping it was; the values it
    shares with the bag are the same afterwards for stages that change
    nothing in place and a trace that is not among them. *)
Definition ProcessingNode_process (proc : world → string → world * option exn)
    (w : world) (self : string) (nd : Node) (pipeline : option Pipe)
    : world * option exn :=
  match data nd, pipeline with
  | Some d, Some p =>
      let out := Pipe_call (MkPipe (update (value_ p) d) (trace p) (functions p)) in
      let nd1 := set_kind (ProcessingNode (Some (pipe_after out))) nd in
      match raised out with
      | Some e => (World (<[self := nd1]> (nodes w)) (calls w), Some e)
      | None =>
          let nd2 := if truthy (returned out) then set_data (returned out) nd1 else nd1 in
          push proc copy_if_truthy self (order (outputs nd))
            (World (<[self := nd2]> (nodes w)) (calls w))
      end
  | _, _ => push proc copy_if_truthy self (order (outputs nd)) w
  end.

(** [MixerNode.process]. *)
Definition MixerNode_process (proc : world → string → world * option exn)
    (w : world) (self : string) (nd : Node) : world * option exn :=
  if bool_decide (2 ≤ size (filter (λ n, n ∈ dom (nodes w)) (inputs nd)))%nat then
    match WeakSet_getitem (inputs nd) 0 with
    | inl e => (w, Some e)
    | inr i0 =>
        match WeakSet_getitem (inputs nd) 1 with
        | inl e => (w, Some e)
        | inr i1 =>
            let data1 := data_of w i0 in
            let data2 := data_of w i1 in
            match data1, data2 with
            | Some d1, Some d2 =>
                if truthy data1 && truthy data2 then
                  let '(h, d1', merged) :=
                    custom_merge ∅ (Val <$> d1) (map_to_list (Val <$> d2)) in
                  let w0 := assign_data w i0 (Some (contents h d1')) in
                  let w1 := assign_data w0 self (Some (contents h merged)) in
                  push proc copy_always self (order (outputs nd)) w1
                else (w, None)
            | _, _ => (w, None)
            end
        end
    end
  else (w, None).

(** [node.process()], dispatched on the class of the node, with [depth]
    frames left on the interpreter's stack.  For a name without an
    object there is nothing to call. *)
Fixpoint process (depth : nat) (w : world) (self : string) : world * option exn :=
  match depth with
  | O => (w, Some RecursionError)
  | S d =>
      match nodes w !! self with
      | None => (w, None)
      | Some nd =>
          let w0 := enter w self in
          match kind nd with
          | BaseNode => (w0, Some NotImplementedError)
          | DataNode h => DataNode_process (process d) w0 self nd h
          | ProcessingNode p => ProcessingNode_process (process d) w0 self nd p
          | MixerNode => MixerNode_process (process d) w0 self nd
          end
      end
  end.

(** [Layer.process]: every exception is caught at the loop body; the
    second component lists, per node, what was caught. *)
Fixpoint Layer_process (depth : nat) (w : world) (layer : list string)
  : world * list (string * option exn) :=
  match layer with
  | [] => (w, [])
  | n :: rest =>
      let '(w1, r) := process depth w n in
      let '(w2, log) := Layer_process depth w1 rest in
      (w2, (n, r) :: log)
  end.

End Process.

(** ** Edges *)

Definition with_input (n : string) (nd : Node) : Node :=
  MkNode (data nd) ({[n]} ∪ inputs nd) (outputs nd) (kind nd).

Definition with_output (n : string) (nd : Node) : Node :=
  MkNode (data nd) (inputs nd) ({[n]} ∪ outputs nd) (kind nd).

(** [Node.add_output] and [Node.add_input] call each other; [depth] is
    the number of frames left, as in [process]. *)
Fixpoint add_output (depth : nat) (s : gmap string Node) (self node : string)
  : gmap string Node * option exn :=
  match depth with
  | O => (s, Some RecursionError)
  | S d =>
      match s !! self with
      | None => (s, None)
      | Some nd =>
          if bool_decide (node ∈ outputs nd) then (s, None)
          else add_input d (alter (with_output node) self s) node self
      end
  end
with add_input (depth : nat) (s : gmap string Node) (self node : string)
  : gmap string Node * option exn :=
  match depth with
  | O => (s, Some RecursionError)
  | S d =>
      match s !! self with
      | None => (s, None)
      | Some nd =>
          if bool_decide (node ∈ inputs nd) then (s, None)
          else add_output d (alter (with_input node) self s) node self
      end
  end.

(** The inner loop of [Layer.connect_to]. *)
Fixpoint connect_node (depth : nat) (s : gmap string Node) (node : string)
    (next_layer : list string) : gmap string Node * option exn :=
  match next_layer with
  | [] => (s, None)
  | next_node :: rest =>
      match add_output depth s node next_node with
      | (s', Some e) => (s', Some e)
      | (s', None) => connect_node depth s' node rest
      end
  end.

(** [Layer.connect_to]. *)
Fixpoint Layer_connect_to (depth : nat) (s : gmap string Node)
    (layer next_layer : list string) : gmap string Node * option exn :=
  match layer with
  | [] => (s, None)
  | node :: rest =>
      match connect_node depth s node next_layer with
      | (s', Some e) => (s', Some e)
      | (s', None) => Layer_connect_to depth s' rest next_layer
      end
  end.

(** ** The stages of [example.py] *)

(** [a + b] on the values of the model. *)
Definition py_add (a b : value) : exn + value :=
  match a, b with
  | VInt x, VInt y => inr (VInt (x + y))
  | VStr x, VStr y => inr (VStr (x +:+ y))
  | VList x, VList y => inr (VList (x ++ y))
  | _, _ => inl TypeError
  end.

(** [a * a]: only integers multiply with themselves. *)
Definition py_square (a : value) : exn + value :=
  match a with
  | VInt x => inr (VInt (x * x))
  | _ => inl TypeError
  end.

(** [add_value(value=1, **data)], called with the keyword arguments [kw]. *)
Definition add_value (kw : gmap string value) : exn + value :=
  let value := default (VInt 1) (kw !! "value") in
  let data := delete "value" kw in
  match py_add (default (VInt 0) (data !! "passthrough")) value with
  | inl e => inl e
  | inr r => inr (VDict (<["passthrough" := r]> data))
  end.

(** [lambda **data: add_value(value=5, **data)]: a key ["value"] in
    [data] is a second value for the same keyword. *)
Definition add_5 : stage :=
  def "<lambda>"
    (λ data, if bool_decide ("value" ∈ dom data) then inl TypeError
             else add_value (<["value" := VInt 5]> data)).

(** [square_value], called with the keyword arguments [data]. *)
Definition square_value : stage :=
  def "square_value"
    (λ data,
       match py_square (default (VInt 0) (data !! "passthrough")) with
       | inl e => inl e
       | inr r => inr (VDict (<["passthrough" := r]> data))
       end).

(** ** Predicates and example stages used in the statements *)

Definition has_key (k : string) (d : gmap string value) : Prop := is_Some (d !! k).

(** A stage fails when it raises or returns something that is no mapping. *)
Definition stage_fails (f : stage) (kw : gmap string value) : Prop :=
  match (call f kw).1 with
  | inl _ => True
  | inr (VDict _) => False
  | inr _ => True
  end.

(** Pipes with tracing enabled, as the methods of the class produce them. *)
Inductive traced : Pipe → Prop :=
| traced_init v fs : traced (Pipe_init v true fs)
| traced_or p f : traced p → traced (Pipe_or p f)
| traced_call p : traced p → traced (pipe_after (Pipe_call p)).

(** The number of entries of the trace a bag holds. *)
Definition trace_length (bag : gmap string value) : option nat :=
  match bag !! "trace" with
  | Some (VList l) => Some (length l)
  | _ => None
  end.

(** A stage changes nothing in place in what it receives. *)
Definition pure (f : stage) : Prop := ∀ kw, (call f kw).2 = ∅.

(** A stage has a [__name__]. *)
Definition named (f : stage) : Prop := is_Some (__name__ f).

(** A stage keeps the trace when it changes nothing in place and the
    mapping it returns has no entry ["trace"] or has the one it
    received. *)
Definition keeps_trace (f : stage) : Prop :=
  pure f
  ∧ ∀ kw r, (call f kw).1 = inr (VDict r) →
      r !! "trace" = None ∨ r !! "trace" = kw !! "trace".

(** The trace entries a run appends: one per stage, named after it. *)
Definition entries_of (fs : list stage) (es : list value) : Prop :=
  Forall2 (λ f e, ∃ name r, __name__ f = Some name ∧ e = trace_entry name r) fs es.

(** A stage that returns a fresh, empty trace, and one that returns
    nothing new. *)
Definition reset_trace : stage :=
  def "reset_trace" (λ _, inr (VDict {["trace" := VList []]})).

Definition keep : stage := def "keep" (λ _, inr (VDict ∅)).

(** A stage that breaks the contract: it returns an integer. *)
Definition returns_int : stage := def "returns_int" (λ _, inr (VInt 3)).

(** [functools.partial(add_value, value=5)]: no [__name__]; a keyword
    of the call replaces the one of the partial. *)
Definition partial_add_5 : stage :=
  Stage None (λ kw, (add_value (kw ∪ {["value" := VInt 5]}), ∅)).

(** A stage that empties the trace list it received, in place, and
    raises; and one that does the same and returns an empty mapping. *)
Definition clear_and_raise : stage :=
  Stage (Some "clear_and_raise")
    (λ _, (inl (UserError "failed"), {["trace" := VList []]})).

Definition clear_trace : stage :=
  Stage (Some "clear_trace") (λ _, (inr (VDict ∅), {["trace" := VList []]})).

(** The merge rule in the words of the specification, for one key:
    what the merged mapping holds given what each operand holds. *)
Definition merge_law (a b : option value) : option value :=
  match a, b with
  | Some (VList l1), Some (VList l2) => Some (VList (l1 ++ l2))
  | Some (VList l1), Some v2 => Some (VList (l1 ++ [v2]))
  | Some v1, Some (VList l2) => Some (VList (v1 :: l2))
  | Some v1, Some v2 => Some (VList [v1; v2])
  | Some v1, None => Some v1
  | None, Some v2 => Some v2
  | None, None => None
  end.

(** The edge sets as relations: [(a, b)] is an output edge when [b] is in
    [a.outputs], an input edge when [a] is in [b.inputs]. *)
Definition out_edges (s : gmap string Node) : gset (string * string) :=
  map_fold (λ a nd acc, set_map (pair a) (outputs nd) ∪ acc) ∅ s.

Definition in_edges (s : gmap string Node) : gset (string * string) :=
  map_fold (λ b nd acc, set_map (λ a, (a, b)) (inputs nd) ∪ acc) ∅ s.

(** Edge symmetry: [b] is an output of [a] exactly when [a] is an input
    of [b]. *)
Definition symmetric (s : gmap string Node) : Prop := out_edges s = in_edges s.

(** [connect(a, b)] of the specification: both edge sets updated at once. *)
Definition connect (s : gmap string Node) (a b : string) : gmap string Node :=
  alter (with_input a) b (alter (with_output b) a s).

(** The objects named by a list exist. *)
Definition live (s : gmap string Node) (l : list string) : Prop :=
  Forall (λ n, is_Some (s !! n)) l.

(** What [connect s a b] holds at the name [x], from what [s] holds. *)
Definition connected (a b x : string) (nd : Node) : Node :=
  MkNode (data nd)
    (if decide (x = b) then {[a]} ∪ inputs nd else inputs nd)
    (if decide (x = a) then {[b]} ∪ outputs nd else outputs nd)
    (kind nd).

(** [connectTo] of the specification: every node of a layer connected to
    every node of the next. *)
Definition connect_all (s : gmap string Node) (layer next_layer : list string)
  : gmap string Node :=
  foldl (λ s a, foldl (λ s b, connect s a b) s next_layer) s layer.

(** [process] never rewires: between two worlds of a run the same names
    exist with the same edge sets, and the call log only grows. *)
Definition edges_of (nd : Node) : gset string * gset string := (inputs nd, outputs nd).

Definition extends (w w' : world) : Prop :=
  calls w `prefix_of` calls w'
  ∧ ∀ x, edges_of <$> nodes w' !! x = edges_of <$> nodes w !! x.

(** [output.data = self.data.copy() if self.data else None]: what an
    output receives from data [d]. *)
Definition pushed (d : option (gmap string value)) : option (gmap string value) :=
  if truthy d then d else None.

(** Propagation to the outputs, as the specification words it, with what
    the source adds: each output in turn receives [sent] of the data the
    node then holds and is processed, the whole of it before the next
    output; an exception raised by an output ends the propagation and is
    raised further.  The source sends [pushed]; a copy of the data
    whatever it is would be [sent := id]. *)
Inductive propagates (sent : option (gmap string value) → option (gmap string value))
    (proc : world → string → world * option exn) (self : string)
  : list string → world → world * option exn → Prop :=
| propagates_done w : propagates sent proc self [] w (w, None)
| propagates_dead o os w r :
    nodes w !! o = None →
    propagates sent proc self os w r →
    propagates sent proc self (o :: os) w r
| propagates_raise o os w w' e :
    is_Some (nodes w !! o) →
    proc (assign_data w o (sent (data_of w self))) o = (w', Some e) →
    propagates sent proc self (o :: os) w (w', Some e)
| propagates_next o os w w' r :
    is_Some (nodes w !! o) →
    proc (assign_data w o (sent (data_of w self))) o = (w', None) →
    propagates sent proc self os w' r →
    propagates sent proc self (o :: os) w r.

(** The call log after a propagation from the log [before]: one segment
    per existing output, in order, each headed by its output. *)
Definition depth_first (before after : list string) (outs : list string) : Prop :=
  ∃ segs, after = before ++ concat segs
    ∧ Forall2 (λ o seg, head seg = Some o) outs segs.

(** Two iteration orders agree on a world when they enumerate the
    outputs of each of its nodes alike. *)
Definition agree (order1 order2 : gset string → list string) (w : world) : Prop :=
  ∀ x nd, nodes w !! x = Some nd → order1 (outputs nd) = order2 (outputs nd).

(** ** Example graphs *)

(** A node as its constructor leaves it: no edges. *)
Definition fresh (d : option (gmap string value)) (k : variant) : Node :=
  MkNode d ∅ ∅ k.

(** The linear chain of the specification, wired layer by layer as
    [example.py] wires its graph: [Pipe() | stage] for each pipeline. *)
Definition chain_nodes : gmap string Node :=
  <["Input" := fresh (Some {["passthrough" := VInt 10]}) (DataNode [])]>
  (<["Adder" := fresh None (ProcessingNode (Some (Pipe_or (Pipe_init ∅ false []) add_5)))]>
  (<["Squarer" :=
       fresh None (ProcessingNode (Some (Pipe_or (Pipe_init ∅ false []) square_value)))]>
  (<["Output" := fresh None (DataNode [])]> ∅))).

Definition chain : world :=
  let s1 := (Layer_connect_to 3 chain_nodes ["Input"] ["Adder"]).1 in
  let s2 := (Layer_connect_to 3 s1 ["Adder"] ["Squarer"]).1 in
  let s3 := (Layer_connect_to 3 s2 ["Squarer"] ["Output"]).1 in
  World s3 [].

(** A source with one output, and a source with two outputs of which
    one is a plain [Node], whose [process] raises. *)
Definition pair_world (src : Node) : world :=
  let s := <["Source" := src]> (<["Sink" := fresh None (DataNode [])]> ∅) in
  World (Layer_connect_to 3 s ["Source"] ["Sink"]).1 [].

Definition fan_world (src : Node) : world :=
  let s := <["Source" := src]>
           (<["Base" := fresh None BaseNode]>
           (<["Sink" := fresh None (DataNode [])]> ∅)) in
  World (Layer_connect_to 3 s ["Source"] ["Base"; "Sink"]).1 [].

(** A [ProcessingNode] holding [dt] whose only stage breaks the contract. *)
Definition failing_transform (dt : gmap string value) : Node :=
  fresh (Some dt) (ProcessingNode (Some (Pipe_or (Pipe_init ∅ false []) returns_int))).

(** A [ProcessingNode] holding [dt] whose only stage is a
    [functools.partial]. *)
Definition nameless_transform (dt : gmap string value) : Node :=
  fresh (Some dt) (ProcessingNode (Some (Pipe_or (Pipe_init ∅ false []) partial_add_5))).

(** An iteration order that visits ["Base"] before ["Sink"]. *)
Definition base_first (X : gset string) : list string := reverse (elements X).

(** Two data nodes feeding a mixer that feeds an output node. *)
Definition mixer_world : world :=
  let s := <["Left" := fresh (Some {["a" := VInt 1]}) (DataNode [])]>
           (<["Right" := fresh (Some {["a" := VInt 2]}) (DataNode [])]>
           (<["Mixer" := fresh None MixerNode]>
           (<["Output" := fresh None (DataNode [])]> ∅))) in
  let s1 := (Layer_connect_to 3 s ["Left"; "Right"] ["Mixer"]).1 in
  World (Layer_connect_to 3 s1 ["Mixer"] ["Output"]).1 [].

(** Two unconnected layers, of two and of three data nodes. *)
Definition two_layers : gmap string Node :=
  list_to_map ((λ n, (n, fresh None (DataNode []))) <$> ["A1"; "A2"; "B1"; "B2"; "B3"]).

(** The two layers after [connect(B1, A1)], an edge back from the second
    layer to the first. *)
Definition two_layers_linked : gmap string Node :=
  (add_output 3 two_layers "B1" "A1").1.

(** A layer of a plain [Node] and an adder, the adder wired to an output
    node. *)
Definition mixed_layer_world : world :=
  let s := <["Broken" := fresh None BaseNode]>
           (<["Adder" :=
                fresh (Some {["passthrough" := VInt 10]})
                  (ProcessingNode (Some (Pipe_or (Pipe_init ∅ false []) add_5)))]>
           (<["Output" := fresh None (DataNode [])]> ∅)) in
  World (Layer_connect_to 3 s ["Broken"; "Adder"] ["Output"]).1 [].

(** * Properties of [Pipe] *)

Lemma lookup_imprint bag changes k :
  imprint bag changes !! k
    = (λ v, from_option (in_place v) v (changes !! k)) <$> bag !! k.
Proof.
  unfold imprint. rewrite map_lookup_imap. by destruct (bag !! k).
Qed.

Lemma imprint_dom bag changes : dom (imprint bag changes) = dom bag.
Proof.
  apply set_eq. intros k. rewrite !elem_of_dom, lookup_imprint.
  by rewrite fmap_is_Some.
Qed.

Lemma imprint_empty bag : imprint bag ∅ = bag.
Proof.
  apply map_eq. intros k. rewrite lookup_imprint, lookup_empty.
  by destruct (bag !! k).
Qed.

Lemma Pipe_call_run_loop v tr fs b r x log :
  run_loop tr v fs = (b, r, x, log) →
  Pipe_call (MkPipe v tr fs) = RunOut (MkPipe b tr fs) r x log.
Proof. intros H. unfold Pipe_call. simpl. by rewrite H. Qed.

Lemma run_loop_Pipe_call v tr fs b r x log :
  Pipe_call (MkPipe v tr fs) = RunOut (MkPipe b tr fs) r x log →
  run_loop tr v fs = (b, r, x, log).
Proof.
  unfold Pipe_call. simpl.
  destruct (run_loop tr v fs) as [[[b0 r0] x0] log0]. by intros [= -> -> -> ->].
Qed.

Lemma try_stage_fails tr bag f name :
  stage_fails f bag → __name__ f = Some name →
  ∃ e, try_stage tr bag f = (imprint bag (call f bag).2, Caught e).
Proof.
  unfold stage_fails, try_stage, handler. intros H Hn. rewrite Hn.
  destruct (call f bag) as [[e|[ | | | | ]] changes]; simpl in *; try done; eauto.
Qed.

Lemma try_stage_fails_nameless tr bag f :
  stage_fails f bag → __name__ f = None →
  try_stage tr bag f = (imprint bag (call f bag).2, Escaped AttributeError).
Proof.
  unfold stage_fails, try_stage, handler. intros H Hn. rewrite Hn.
  destruct (call f bag) as [[e|[ | | | | ]] changes]; simpl in *; done.
Qed.

Lemma run_loop_returned tr fs : ∀ bag b r x log,
  run_loop tr bag fs = (b, Some r, x, log) → r = b ∧ x = None.
Proof.
  induction fs as [|f fs IH]; intros bag b r x log; simpl.
  - by intros [= <- <- <- <-].
  - destruct (try_stage tr bag f) as [bag' [|e|e]]; [|congruence|congruence].
    destruct (run_loop tr bag' fs) as [[[b0 r0] x0] log0] eqn:E.
    intros [= <- -> <- <-]. eauto.
Qed.

Lemma run_loop_app tr pre : ∀ post bag b r log,
  run_loop tr bag pre = (b, Some r, None, log) →
  run_loop tr bag (pre ++ post) =
    let '(b', r', x', log') := run_loop tr b post in (b', r', x', log ++ log').
Proof.
  induction pre as [|f pre IH]; intros post bag b r log; simpl.
  - intros [= <- <- <-]. by destruct (run_loop tr bag post) as [[[? ?] ?] ?].
  - destruct (try_stage tr bag f) as [bag' [|e|e]]; [|congruence|congruence].
    destruct (run_loop tr bag' pre) as [[[b0 r0] x0] log0] eqn:E.
    intros [= -> -> -> <-].
    rewrite (IH post _ _ _ _ E).
    by destruct (run_loop tr b post) as [[[? ?] ?] ?].
Qed.

(** C2, amended. When the stages before a stage all succeed and that
    stage, which has a [__name__], raises or returns a non-mapping,
    [run()] returns [None] and raises nothing, the stages invoked are
    those up to and including the failing one, and the bag is the one the
    earlier stages alone would have left, with what the failing stage
    changed in place in the values it was handed. *)
Theorem run_fail_fast (p : Pipe) (pre post : list stage) (f : stage)
    (bag : gmap string value) (log : list (option string * gmap string value))
    (name : string) :
  functions p = pre ++ f :: post →
  Pipe_call (MkPipe (value_ p) (trace p) pre)
    = RunOut (MkPipe bag (trace p) pre) (Some bag) None log →
  stage_fails f bag →
  __name__ f = Some name →
  Pipe_call p
    = RunOut (MkPipe (imprint bag (call f bag).2) (trace p) (functions p))
        None None (log ++ [(Some name, bag)]).
Proof.
  intros Hfs Hpre Hfail Hname. apply run_loop_Pipe_call in Hpre.
  destruct p as [v tr fs]. simpl in *. apply Pipe_call_run_loop.
  rewrite Hfs at 1. rewrite (run_loop_app _ _ _ _ _ _ _ Hpre). simpl.
  destruct (try_stage_fails tr bag f name Hfail Hname) as [e ->].
  by rewrite Hname.
Qed.

Lemma try_stage_dom tr bag f : dom bag ⊆ dom (try_stage tr bag f).1.
Proof.
  unfold try_stage.
  destruct (call f bag) as [res changes].
  pose proof (imprint_dom bag changes) as Hi.
  destruct res as [e|[ | | | |result]]; simpl; try (by rewrite Hi).
  assert (dom bag ⊆ dom (update (imprint bag changes) result)) as H.
  { unfold update. rewrite dom_union_L, Hi. set_solver. }
  destruct tr; simpl; [|done].
  destruct (update (imprint bag changes) result !! "trace") as [[ | | |l| ]|];
    simpl; try done.
  destruct (__name__ f); simpl; [|done].
  rewrite dom_insert_L. set_solver.
Qed.

Lemma run_loop_dom tr fs : ∀ bag b r x log,
  run_loop tr bag fs = (b, r, x, log) →
  dom bag ⊆ dom b ∧ ∀ n kw, (n, kw) ∈ log → dom bag ⊆ dom kw.
Proof.
  induction fs as [|f fs IHfs]; intros bag b r x log; simpl.
  - intros [= <- <- <- <-]. split; [done|]. intros n kw H. by apply elem_of_nil in H.
  - pose proof (try_stage_dom tr bag f) as Hd.
    destruct (try_stage tr bag f) as [bag' [|e|e]]; simpl in Hd.
    + destruct (run_loop tr bag' fs) as [[[b0 r0] x0] log0] eqn:E.
      destruct (IHfs _ _ _ _ _ E) as [H1 H2]. clear IHfs E.
      intros [= <- <- <- <-]. split; [set_solver|].
      intros n kw H. apply elem_of_cons in H as [H|H].
      * by injection H as -> ->.
      * specialize (H2 n kw H). set_solver.
    + intros [= <- <- <- <-]. split; [done|].
      intros n kw H. apply list_elem_of_singleton in H. by injection H as -> ->.
    + intros [= <- <- <- <-]. split; [done|].
      intros n kw H. apply list_elem_of_singleton in H. by injection H as -> ->.
Qed.

Lemma has_key_dom k (d : gmap string value) : has_key k d ↔ k ∈ dom d.
Proof. unfold has_key. by rewrite elem_of_dom. Qed.

Lemma Pipe_call_trace_flag p : trace (pipe_after (Pipe_call p)) = trace p.
Proof.
  unfold Pipe_call.
  by destruct (run_loop (trace p) (value_ p) (functions p)) as [[[? ?] ?] ?].
Qed.

Lemma Pipe_call_dom p :
  dom (value_ p) ⊆ dom (value_ (pipe_after (Pipe_call p)))
  ∧ (∀ n kw, (n, kw) ∈ invoked (Pipe_call p) → dom (value_ p) ⊆ dom kw)
  ∧ (∀ r, returned (Pipe_call p) = Some r → dom (value_ p) ⊆ dom r).
Proof.
  unfold Pipe_call.
  destruct (run_loop (trace p) (value_ p) (functions p)) as [[[b r] x] log] eqn:E.
  destruct (run_loop_dom _ _ _ _ _ _ _ E) as [H1 H2]. simpl.
  split; [done|]. split; [done|].
  intros r' ->. by destruct (run_loop_returned _ _ _ _ _ _ _ E) as [-> _].
Qed.

Lemma traced_inv p : traced p → trace p = true ∧ has_key "trace" (value_ p).
Proof.
  induction 1 as [v fs|p f _ [IH1 IH2]|p _ [IH1 IH2]].
  - split; [done|]. simpl. unfold has_key. by rewrite lookup_insert_eq.
  - done.
  - rewrite Pipe_call_trace_flag. split; [done|].
    apply has_key_dom. apply has_key_dom in IH2.
    destruct (Pipe_call_dom p) as [H _]. set_solver.
Qed.

(** C10. A pipe built with tracing keeps the entry ["trace"] in its bag:
    every stage invoked by [run()] receives it among its keyword
    arguments, together with every entry the bag held when the run
    started, a successful run returns a mapping that contains it, and the
    pipe after the run is again such a pipe. *)
Theorem trace_kept_in_bag (p : Pipe) :
  traced p →
  has_key "trace" (value_ p)
  ∧ (∀ n kw, (n, kw) ∈ invoked (Pipe_call p) →
       has_key "trace" kw ∧ dom (value_ p) ⊆ dom kw)
  ∧ (∀ r, returned (Pipe_call p) = Some r → has_key "trace" r)
  ∧ traced (pipe_after (Pipe_call p))
  ∧ has_key "trace" (value_ (pipe_after (Pipe_call p))).
Proof.
  intros Hp. destruct (traced_inv p Hp) as [_ Hk].
  destruct (Pipe_call_dom p) as (H1 & H2 & H3).
  apply has_key_dom in Hk.
  split; [by apply has_key_dom|].
  split. { intros n kw H. specialize (H2 n kw H). rewrite has_key_dom. set_solver. }
  split. { intros r H. specialize (H3 r H). rewrite has_key_dom. set_solver. }
  split; [by constructor|].
  rewrite has_key_dom. set_solver.
Qed.

Lemma try_stage_trace f bag bag' l :
  keeps_trace f →
  bag !! "trace" = Some (VList l) →
  try_stage true bag f = (bag', Done) →
  ∃ name r, __name__ f = Some name
       ∧ (call f bag).1 = inr (VDict r)
       ∧ bag' !! "trace" = Some (VList (l ++ [trace_entry name r])).
Proof.
  intros [Hpure Hf] Hl. unfold try_stage, handler.
  specialize (Hpure bag). specialize (Hf bag).
  destruct (call f bag) as [res changes]. simpl in *. subst changes.
  rewrite imprint_empty.
  destruct res as [e|[ | | | |r]]; try (destruct (__name__ f); congruence).
  assert (update bag r !! "trace" = Some (VList l)) as ->.
  { unfold update. destruct (Hf r eq_refl) as [H|H].
    - by rewrite lookup_union_r.
    - apply lookup_union_Some_l. congruence. }
  destruct (__name__ f) as [name|]; [|congruence].
  intros [= <-]. exists name, r. split; [done|]. split; [done|].
  by rewrite lookup_insert_eq.
Qed.

Lemma run_loop_trace fs : ∀ bag l b r x log,
  Forall keeps_trace fs →
  bag !! "trace" = Some (VList l) →
  run_loop true bag fs = (b, Some r, x, log) →
  ∃ es, b !! "trace" = Some (VList (l ++ es))
        ∧ entries_of fs es
        ∧ log.*1 = __name__ <$> fs.
Proof.
  induction fs as [|f fs IHfs]; intros bag l b r x log Hfs Hl; simpl.
  - intros [= <- <- <- <-]. exists []. rewrite app_nil_r.
    split; [done|]. split; [apply Forall2_nil_2|done].
  - apply Forall_cons in Hfs as [Hf Hfs].
    destruct (try_stage true bag f) as [bag' [|e|e]] eqn:Ht; [|congruence|congruence].
    destruct (try_stage_trace f bag bag' l Hf Hl Ht) as (name & r1 & Hn & _ & Hl').
    destruct (run_loop true bag' fs) as [[[b0 r0] x0] log0] eqn:E.
    intros [= <- -> <- <-].
    destruct (IHfs _ _ _ _ _ _ Hfs Hl' E) as (es & H1 & H2 & H3).
    exists (trace_entry name r1 :: es).
    rewrite <- app_assoc in H1. split; [done|]. split.
    + constructor; [by exists name, r1|done].
    + rewrite !fmap_cons. simpl. by f_equal.
Qed.

(** C5, amended. For a pipe constructed with tracing and three stages
    that keep the trace (they change nothing in place and return no
    other trace), the mapping returned by the successful run after
    construction holds, under ["trace"], four entries: the snapshot of
    the bag given to the constructor, then one entry per stage, under
    its name, in the order of the stages, which is the order of
    invocation. *)
Theorem trace_of_three_stages (v : gmap string value) (s1 s2 s3 : stage)
    (res : gmap string value) :
  keeps_trace s1 → keeps_trace s2 → keeps_trace s3 →
  returned (Pipe_call (Pipe_init v true [s1; s2; s3])) = Some res →
  ∃ n1 n2 n3 r1 r2 r3,
    __name__ s1 = Some n1 ∧ __name__ s2 = Some n2 ∧ __name__ s3 = Some n3
    ∧ res !! "trace"
      = Some (VList [trace_entry "input" v; trace_entry n1 r1;
                     trace_entry n2 r2; trace_entry n3 r3])
    ∧ (invoked (Pipe_call (Pipe_init v true [s1; s2; s3]))).*1
      = [Some n1; Some n2; Some n3].
Proof.
  intros H1 H2 H3. unfold Pipe_call. simpl trace. simpl value_. simpl functions.
  destruct (run_loop true _ [s1; s2; s3]) as [[[b r] x] log] eqn:E. simpl.
  intros ->.
  destruct (run_loop_returned _ _ _ _ _ _ _ E) as [-> _].
  destruct (run_loop_trace [s1; s2; s3] _ [trace_entry "input" v] _ _ _ _
              ltac:(by repeat apply Forall_cons_2; [..|apply Forall_nil_2])
              ltac:(by rewrite lookup_insert_eq) E)
    as (es & Hb & Hes & Hlog).
  apply Forall2_cons_inv_l in Hes as (e1 & es1 & (n1 & r1 & Hn1 & ->) & Hes & ->).
  apply Forall2_cons_inv_l in Hes as (e2 & es2 & (n2 & r2 & Hn2 & ->) & Hes & ->).
  apply Forall2_cons_inv_l in Hes as (e3 & es3 & (n3 & r3 & Hn3 & ->) & Hes & ->).
  apply Forall2_nil_inv_l in Hes as ->.
  exists n1, n2, n3, r1, r2, r3.
  rewrite Hlog. simpl. rewrite Hn1, Hn2, Hn3. by repeat split.
Qed.

Lemma trace_length_Some bag l :
  bag !! "trace" = Some (VList l) → trace_length bag = Some (length l).
Proof. unfold trace_length. by intros ->. Qed.

(** C5 as stated fails: after [reset_trace] the trace holds only the
    entries of the three stages; and three stages that empty in place
    the trace list they receive leave a trace of one entry. *)
Lemma trace_length_counterexample :
  ¬ (∀ (v : gmap string value) (s1 s2 s3 : stage) (res : gmap string value),
       returned (Pipe_call (Pipe_init v true [s1; s2; s3])) = Some res →
       ∃ l, res !! "trace" = Some (VList l)
            ∧ length l = 4%nat
            ∧ l !! 0%nat = Some (trace_entry "input" v))
  ∧ trace_length <$>
      returned (Pipe_call (Pipe_init ∅ true [clear_trace; clear_trace; clear_trace]))
    = Some (Some 1%nat).
Proof.
  split; [|vm_compute; reflexivity].
  intros H.
  assert (trace_length <$>
            returned (Pipe_call (Pipe_init ∅ true [reset_trace; keep; keep]))
          = Some (Some 3%nat)) as Hobs by (vm_compute; reflexivity).
  destruct (returned (Pipe_call (Pipe_init ∅ true [reset_trace; keep; keep])))
    as [res|] eqn:E; [|discriminate Hobs].
  destruct (H _ _ _ _ _ E) as (l & Hl & Hlen & _).
  simpl in Hobs. rewrite (trace_length_Some _ _ Hl), Hlen in Hobs. discriminate Hobs.
Qed.

(** C2 as stated fails.  A failing callable without [__name__] makes the
    [except] block itself raise: [run()] raises [AttributeError] and
    returns nothing.  And a failing stage that has emptied in place the
    trace list it was handed leaves the bag without the two entries
    that the run of the stage before it records. *)
Lemma run_fail_fast_counterexample :
  (stage_fails partial_add_5 {["passthrough" := VStr "ab"]}
   ∧ raised (Pipe_call (MkPipe {["passthrough" := VStr "ab"]} false [partial_add_5]))
     = Some AttributeError)
  ∧ (trace_length (value_ (pipe_after (Pipe_call (Pipe_init ∅ true [keep]))))
       = Some 2%nat
     ∧ stage_fails clear_and_raise
         (value_ (pipe_after (Pipe_call (Pipe_init ∅ true [keep]))))
     ∧ returned (Pipe_call (Pipe_init ∅ true [keep; clear_and_raise])) = None
     ∧ trace_length
         (value_ (pipe_after (Pipe_call (Pipe_init ∅ true [keep; clear_and_raise]))))
       = Some 0%nat).
Proof.
  repeat split; try (vm_compute; reflexivity); exact I.
Qed.

Lemma try_stage_named tr bag f e :
  named f → (try_stage tr bag f).2 ≠ Escaped e.
Proof.
  intros [name Hn]. unfold try_stage, handler.
  destruct (call f bag) as [[e'|[]] changes]; rewrite ?Hn; simpl; try done.
  destruct tr; [|done].
  destruct (update _ _ !! "trace") as [[]|]; rewrite ?Hn; done.
Qed.

(** A run of stages that all have a [__name__] raises nothing. *)
Lemma run_loop_named tr fs : ∀ bag,
  Forall named fs → (run_loop tr bag fs).1.2 = None.
Proof.
  induction fs as [|f fs IH]; intros bag Hfs; [done|].
  apply Forall_cons in Hfs as [Hf Hfs]. simpl.
  pose proof (try_stage_named tr bag f) as Hne.
  destruct (try_stage tr bag f) as [bag' [|e|e]]; simpl in *.
  - specialize (IH bag' Hfs).
    by destruct (run_loop tr bag' fs) as [[[b r] x] log].
  - done.
  - by destruct (Hne e Hf).
Qed.

Lemma Pipe_call_named p : Forall named (functions p) → raised (Pipe_call p) = None.
Proof.
  intros H. unfold Pipe_call.
  pose proof (run_loop_named (trace p) (functions p) (value_ p) H) as Hr.
  by destruct (run_loop _ _ _) as [[[b r] x] log].
Qed.

Lemma keeps_trace_def name body :
  (∀ kw r, body kw = inr (VDict r) →
     r !! "trace" = None ∨ r !! "trace" = kw !! "trace") →
  keeps_trace (def name body).
Proof. intros H. split; [done|]. intros kw r. simpl. apply H. Qed.

Lemma keeps_trace_add_5 : keeps_trace add_5.
Proof.
  apply keeps_trace_def. intros kw r. case_bool_decide; [done|]. unfold add_value.
  destruct (py_add _ _) as [e|x]; [done|]. intros [= <-]. right.
  rewrite lookup_insert_ne by done. rewrite lookup_delete_ne by done.
  by rewrite lookup_insert_ne.
Qed.

Lemma keeps_trace_square_value : keeps_trace square_value.
Proof.
  apply keeps_trace_def. intros kw r.
  destruct (py_square _) as [e|x]; [done|]. intros [= <-]. right.
  by rewrite lookup_insert_ne.
Qed.

Lemma run_fail_fast_witness :
  let p := MkPipe {["passthrough" := VInt 10]} false [add_5; returns_int; square_value] in
  let bag : gmap string value := {["passthrough" := VInt 15]} in
  stage_fails returns_int bag
  ∧ Pipe_call p
    = RunOut (MkPipe (imprint bag (call returns_int bag).2) false (functions p))
        None None
        ([(Some "<lambda>", {["passthrough" := VInt 10]})] ++ [(Some "returns_int", bag)]).
Proof.
  intros p bag. split; [exact I|].
  apply (run_fail_fast p [add_5] [square_value] returns_int bag
           [(Some "<lambda>", {["passthrough" := VInt 10]})] "returns_int").
  - reflexivity.
  - apply Pipe_call_run_loop. vm_compute. reflexivity.
  - exact I.
  - reflexivity.
Defined.

(** The run of three stages of [example.py] succeeds, with a trace of
    four entries. *)
Lemma trace_of_three_stages_run :
  trace_length <$>
    returned (Pipe_call (Pipe_init {["passthrough" := VInt 10]} true
                           [add_5; square_value; square_value]))
  = Some (Some 4%nat).
Proof. vm_compute. reflexivity. Qed.

Lemma trace_of_three_stages_witness :
  let v : gmap string value := {["passthrough" := VInt 10]} in
  let p := Pipe_init v true [add_5; square_value; square_value] in
  ∃ res,
    returned (Pipe_call p) = Some res
    ∧ ∃ n1 n2 n3 r1 r2 r3,
        __name__ add_5 = Some n1 ∧ __name__ square_value = Some n2
        ∧ __name__ square_value = Some n3
        ∧ res !! "trace"
          = Some (VList [trace_entry "input" v; trace_entry n1 r1;
                         trace_entry n2 r2; trace_entry n3 r3])
        ∧ (invoked (Pipe_call p)).*1 = [Some n1; Some n2; Some n3].
Proof.
  cbv zeta. pose proof trace_of_three_stages_run as Hrun.
  destruct (returned _) as [res|] eqn:E in Hrun |- *; [|discriminate Hrun].
  exists res. split; [reflexivity|].
  apply (trace_of_three_stages _ add_5 square_value square_value res).
  - exact keeps_trace_add_5.
  - exact keeps_trace_square_value.
  - exact keeps_trace_square_value.
  - exact E.
Defined.

Lemma trace_kept_in_bag_witness :
  let p := Pipe_init {["passthrough" := VInt 10]} true [add_5; square_value] in
  has_key "trace" (value_ p)
  ∧ (∀ n kw, (n, kw) ∈ invoked (Pipe_call p) →
       has_key "trace" kw ∧ dom (value_ p) ⊆ dom kw)
  ∧ (∀ r, returned (Pipe_call p) = Some r → has_key "trace" r)
  ∧ traced (pipe_after (Pipe_call p))
  ∧ has_key "trace" (value_ (pipe_after (Pipe_call p))).
Proof.
  intros p. apply (trace_kept_in_bag p). apply traced_init.
Defined.

(** * Properties of [custom_merge] *)

Lemma merge_law_None_r a : merge_law a None = a.
Proof. by destruct a as [[]|]. Qed.

Lemma merge_entry_unshared (key : string) (v : value) (D M : gmap string value) :
  ∃ D', merge_entry key (Val v) (∅, Val <$> D, Val <$> M)
        = (∅, Val <$> D',
           Val <$> from_option (λ r, <[key := r]> M) M
                     (merge_law (M !! key) (Some v))).
Proof.
  unfold merge_entry. rewrite lookup_fmap.
  destruct (M !! key) as [m|] eqn:Hm; simpl.
  - destruct m, v; simpl; rewrite ?fmap_insert;
      try (by exists D); by eexists (<[key := _]> D); rewrite fmap_insert.
  - exists D. by rewrite fmap_insert.
Qed.

(** Without shared lists the merged mapping holds, at every key, what
    [merge_law] prescribes from the entries of the two operands. *)
Lemma custom_merge_unshared (d1 : gmap string value) (l : list (string * value)) :
  NoDup l.*1 →
  ∃ D M, custom_merge ∅ (Val <$> d1) (prod_map id Val <$> l)
         = (∅, Val <$> D, Val <$> M)
       ∧ ∀ k, M !! k = merge_law (d1 !! k) (list_to_map (M := gmap string value) l !! k).
Proof.
  unfold custom_merge. induction l as [|[key v] l IH] using rev_ind; intros Hnd.
  - exists d1, d1. split; [done|]. intros k. simpl.
    by rewrite lookup_empty, merge_law_None_r.
  - rewrite fmap_app in Hnd. apply NoDup_app in Hnd as (Hl & Hkey & _).
    destruct (IH Hl) as (D & M & E & HM).
    rewrite fmap_app, foldl_app, E.
    change (foldl _ ?s (prod_map id Val <$> [(key, v)]))
      with (merge_entry key (Val v) s).
    destruct (merge_entry_unshared key v D M) as [D' ED']. rewrite ED'.
    eexists D', _. split; [done|]. intros k.
    assert (Hfresh : list_to_map (M := gmap string value) l !! key = None).
    { apply not_elem_of_list_to_map_1. intros Hin. apply (Hkey _ Hin).
      simpl. set_solver. }
    assert (Hl2 : list_to_map (M := gmap string value) (l ++ [(key, v)]) !! k
                  = if decide (k = key) then Some v
                    else list_to_map (M := gmap string value) l !! k).
    { rewrite list_to_map_app. destruct (decide (k = key)) as [->|Hne].
      - rewrite lookup_union_r by done. simpl. by rewrite lookup_insert_eq.
      - rewrite lookup_union_l; [done|].
        apply not_elem_of_list_to_map_1. set_solver. }
    rewrite Hl2. pose proof (HM key) as HMk. rewrite Hfresh, merge_law_None_r in HMk.
    destruct (decide (k = key)) as [->|Hne].
    + rewrite <- HMk.
      destruct (merge_law (M !! key) (Some v)) as [r|] eqn:Er; simpl.
      * by rewrite lookup_insert_eq.
      * by destruct (M !! key) as [[]|], v.
    + rewrite <- HM.
      destruct (merge_law (M !! key) (Some v)) as [r|]; simpl; [|done].
      by rewrite lookup_insert_ne.
Qed.

(** The rule of the specification, for two mappings that share no list:
    the three merges it lists, and every key in general. *)
Lemma custom_merge_law_unshared :
  (custom_merge ∅ {["a" := Val (VInt 1)]} [("a", Val (VInt 2))]).2
    = {["a" := Val (VList [VInt 1; VInt 2])]}
  ∧ (custom_merge ∅ {["a" := Val (VList [VInt 1])]} [("a", Val (VInt 2))]).2
    = {["a" := Val (VList [VInt 1; VInt 2])]}
  ∧ (custom_merge ∅ {["a" := Val (VInt 1)]} [("b", Val (VInt 2))]).2
    = {["a" := Val (VInt 1); "b" := Val (VInt 2)]}
  ∧ ∀ (dict1 dict2 : gmap string value) (k : string),
      contents ∅ (custom_merge ∅ (Val <$> dict1)
                    (prod_map id Val <$> map_to_list dict2)).2 !! k
      = merge_law (dict1 !! k) (dict2 !! k).
Proof.
  split; [vm_compute; reflexivity|].
  split; [vm_compute; reflexivity|].
  split; [vm_compute; reflexivity|].
  intros dict1 dict2 k.
  destruct (custom_merge_unshared dict1 (map_to_list dict2)) as (D & M & E & HM).
  { apply NoDup_fst_map_to_list. }
  rewrite E. simpl. unfold contents. rewrite <- map_fmap_compose.
  rewrite (map_fmap_ext _ id); [|done]. rewrite map_fmap_id.
  rewrite HM. by rewrite list_to_map_to_list.
Qed.

(** C7. A list that the first mapping holds under two keys is extended in
    place at each of them: merging [{a: x, b: x}], [x = [1]], with
    [{a: 2, b: 3}] gives [[1, 2, 3]] under both keys, where the rule of
    the specification gives [[1, 2]] under [a] and [[1, 3]] under [b].
    The first operand itself holds the extended list afterwards, and so it
    does when nothing is shared: merging [{a: [1]}] with [{a: 2}] leaves
    [{a: [1, 2]}] in the first operand. *)
Theorem custom_merge_extends_shared_list :
  let h : gmap nat (list value) := {[0%nat := [VInt 1]]} in
  let dict1 : gmap string entry := {["a" := Ref 0; "b" := Ref 0]} in
  let dict2 : list (string * entry) := [("a", Val (VInt 2)); ("b", Val (VInt 3))] in
  let '(h', dict1', merged) := custom_merge h dict1 dict2 in
  contents h' merged
    = {["a" := VList [VInt 1; VInt 2; VInt 3]; "b" := VList [VInt 1; VInt 2; VInt 3]]}
  ∧ contents h' dict1' = contents h' merged
  ∧ merge_law (contents h dict1 !! "a") (Some (VInt 2)) = Some (VList [VInt 1; VInt 2])
  ∧ merge_law (contents h dict1 !! "b") (Some (VInt 3)) = Some (VList [VInt 1; VInt 3])
  ∧ (custom_merge ∅ {["a" := Val (VList [VInt 1])]} [("a", Val (VInt 2))]).1.2
    = {["a" := Val (VList [VInt 1; VInt 2])]}.
Proof.
  vm_compute. split; [reflexivity|]. split; [reflexivity|].
  split; [reflexivity|]. split; reflexivity.
Qed.

(** * Properties of the edge sets *)

Lemma elem_of_out_edges s a b :
  (a, b) ∈ out_edges s ↔ ∃ nd, s !! a = Some nd ∧ b ∈ outputs nd.
Proof.
  revert a b. unfold out_edges.
  apply (map_fold_weak_ind
    (λ (acc : gset (string * string)) (m : gmap string Node),
       ∀ a b, (a, b) ∈ acc ↔ ∃ nd, m !! a = Some nd ∧ b ∈ outputs nd)).
  - intros a b. split; [set_solver|]. intros (nd & H & _). by rewrite lookup_empty in H.
  - intros i x m r Hi IH a b. rewrite elem_of_union, IH, elem_of_map.
    destruct (decide (a = i)) as [->|Hne].
    + rewrite lookup_insert_eq, Hi. split.
      * intros [(y & [= <-] & Hy)|(nd & [=] & _)]. eauto.
      * intros (nd & [= <-] & Hb). left. eauto.
    + rewrite lookup_insert_ne by done. split.
      * intros [(y & [= ? <-] & Hy)|H]; [congruence|done].
      * intros H. by right.
Qed.

Lemma elem_of_in_edges s a b :
  (a, b) ∈ in_edges s ↔ ∃ nd, s !! b = Some nd ∧ a ∈ inputs nd.
Proof.
  revert a b. unfold in_edges.
  apply (map_fold_weak_ind
    (λ (acc : gset (string * string)) (m : gmap string Node),
       ∀ a b, (a, b) ∈ acc ↔ ∃ nd, m !! b = Some nd ∧ a ∈ inputs nd)).
  - intros a b. split; [set_solver|]. intros (nd & H & _). by rewrite lookup_empty in H.
  - intros i x m r Hi IH a b. rewrite elem_of_union, IH, elem_of_map.
    destruct (decide (b = i)) as [->|Hne].
    + rewrite lookup_insert_eq, Hi. split.
      * intros [(y & [= <-] & Hy)|(nd & [=] & _)]. eauto.
      * intros (nd & [= <-] & Hb). left. eauto.
    + rewrite lookup_insert_ne by done. split.
      * intros [(y & [= <- ?] & Hy)|H]; [congruence|done].
      * intros H. by right.
Qed.

Lemma lookup_connect s a b x :
  connect s a b !! x = connected a b x <$> s !! x.
Proof.
  unfold connect, connected. rewrite !lookup_alter.
  destruct (decide (b = x)) as [->|Hb], (decide (a = x)) as [->|Ha];
    repeat (destruct (decide _); try congruence);
    destruct (s !! x) as [[d i o k]|]; done.
Qed.

Lemma out_edges_connect s a b :
  is_Some (s !! a) → out_edges (connect s a b) = {[(a, b)]} ∪ out_edges s.
Proof.
  intros [na Ha]. apply set_eq. intros [x y].
  rewrite elem_of_union, elem_of_singleton, !elem_of_out_edges, lookup_connect.
  split.
  - intros (nd & Hx & Hy). destruct (s !! x) as [nd0|] eqn:E; [|done].
    injection Hx as <-. simpl in Hy. destruct (decide (x = a)) as [->|]; [|eauto].
    apply elem_of_union in Hy as [Hy|Hy]; [|eauto].
    apply elem_of_singleton in Hy as ->. by left.
  - intros [[= -> ->]|(nd0 & Hx & Hy)].
    + rewrite Ha. eexists. split; [done|]. simpl. rewrite decide_True by done. set_solver.
    + rewrite Hx. eexists. split; [done|]. simpl. destruct (decide _); set_solver.
Qed.

Lemma in_edges_connect s a b :
  is_Some (s !! b) → in_edges (connect s a b) = {[(a, b)]} ∪ in_edges s.
Proof.
  intros [nb Hb]. apply set_eq. intros [x y].
  rewrite elem_of_union, elem_of_singleton, !elem_of_in_edges, lookup_connect.
  split.
  - intros (nd & Hx & Hy). destruct (s !! y) as [nd0|] eqn:E; [|done].
    injection Hx as <-. simpl in Hy. destruct (decide (y = b)) as [->|]; [|eauto].
    apply elem_of_union in Hy as [Hy|Hy]; [|eauto].
    apply elem_of_singleton in Hy as ->. by left.
  - intros [[= -> ->]|(nd0 & Hx & Hy)].
    + rewrite Hb. eexists. split; [done|]. simpl. rewrite decide_True by done. set_solver.
    + rewrite Hx. eexists. split; [done|]. simpl. destruct (decide _); set_solver.
Qed.

Lemma connect_dom s a b x : is_Some (connect s a b !! x) ↔ is_Some (s !! x).
Proof. rewrite lookup_connect. by rewrite fmap_is_Some. Qed.

(** With the edge already there in both sets, [connect] changes nothing. *)
Lemma connect_id s a b :
  (a, b) ∈ out_edges s → (a, b) ∈ in_edges s → connect s a b = s.
Proof.
  intros (na & Ha & Hab)%elem_of_out_edges (nb & Hb & Hba)%elem_of_in_edges.
  apply map_eq. intros x. rewrite lookup_connect.
  destruct (s !! x) as [[d i o k]|] eqn:E; [|done]. simpl. unfold connected. simpl.
  f_equal. f_equal.
  - destruct (decide (x = b)) as [->|]; [|done].
    rewrite Hb in E. injection E as ->. simpl in Hba.
    by apply subseteq_union_1_L, singleton_subseteq_l.
  - destruct (decide (x = a)) as [->|]; [|done].
    rewrite Ha in E. injection E as ->. simpl in Hab.
    by apply subseteq_union_1_L, singleton_subseteq_l.
Qed.

Lemma add_output_S d s self node :
  add_output (S d) s self node =
    match s !! self with
    | None => (s, None)
    | Some nd =>
        if bool_decide (node ∈ outputs nd) then (s, None)
        else add_input d (alter (with_output node) self s) node self
    end.
Proof. reflexivity. Qed.

Lemma add_input_S d s self node :
  add_input (S d) s self node =
    match s !! self with
    | None => (s, None)
    | Some nd =>
        if bool_decide (node ∈ inputs nd) then (s, None)
        else add_output d (alter (with_input node) self s) node self
    end.
Proof. reflexivity. Qed.

(** On two existing nodes between which the edge is in both sets or in
    neither, [a.add_output(b)] returns, three frames deep at most, and
    does what [connect] does. *)
Lemma add_output_connect d s a b :
  is_Some (s !! a) → is_Some (s !! b) →
  ((a, b) ∈ out_edges s ↔ (a, b) ∈ in_edges s) →
  add_output (S (S (S d))) s a b = (connect s a b, None).
Proof.
  intros [na Ha] [nb Hb] Hsym. rewrite add_output_S, Ha.
  case_bool_decide as Hout.
  - assert ((a, b) ∈ out_edges s) as Ho by (apply elem_of_out_edges; eauto).
    by rewrite connect_id by tauto.
  - assert ((a, b) ∉ in_edges s) as Hi.
    { rewrite <- Hsym, elem_of_out_edges. intros (nd & ? & ?). congruence. }
    rewrite add_input_S.
    assert (∃ nb1, alter (with_output b) a s !! b = Some nb1 ∧ inputs nb1 = inputs nb)
      as (nb1 & -> & Hin).
    { rewrite lookup_alter. destruct (decide (a = b)) as [->|].
      - rewrite Hb. by eexists.
      - rewrite Hb. by eexists. }
    rewrite bool_decide_eq_false_2.
    2:{ rewrite Hin. intros H. apply Hi, elem_of_in_edges. eauto. }
    fold (connect s a b). rewrite add_output_S, lookup_connect, Ha. simpl.
    rewrite decide_True by done.
    rewrite bool_decide_eq_true_2; [done|]. apply elem_of_union_l. by apply elem_of_singleton.
Qed.

Lemma add_output_present d s a b :
  (a, b) ∈ out_edges s → add_output (S d) s a b = (s, None).
Proof.
  intros (na & Ha & Hab)%elem_of_out_edges.
  rewrite add_output_S, Ha. by rewrite bool_decide_eq_true_2.
Qed.

Lemma symmetric_connect s a b :
  is_Some (s !! a) → is_Some (s !! b) → symmetric s → symmetric (connect s a b).
Proof.
  unfold symmetric. intros Ha Hb Hs.
  by rewrite out_edges_connect, in_edges_connect, Hs.
Qed.

Lemma NoDup_list_prod {A B} (l : list A) (k : list B) :
  NoDup l → NoDup k → NoDup (list_prod l k).
Proof.
  intros Hl Hk. induction Hl as [|a l Ha Hl IH]; simpl; [constructor|].
  apply NoDup_app. split; [|split; [|done]].
  - apply NoDup_fmap_2_strong; [|done]. by intros ?? _ _ [=].
  - intros [x y] (y' & [= -> ->] & _)%list_elem_of_fmap Hin.
    apply list_elem_of_In, in_prod_iff in Hin as [Hin _].
    by apply list_elem_of_In in Hin.
Qed.

Lemma live_connect s a b l : live s l → live (connect s a b) l.
Proof.
  unfold live. intros H. eapply Forall_impl; [exact H|].
  intros x. by rewrite connect_dom.
Qed.

Section Wiring.

Variable a : string.

Lemma connect_row_live s l k :
  live s l → live (foldl (λ s b, connect s a b) s k) l.
Proof. revert s. induction k; simpl; auto using live_connect. Qed.

Lemma connect_row_edges s k :
  is_Some (s !! a) → live s k →
  out_edges (foldl (λ s b, connect s a b) s k)
    = list_to_set (pair a <$> k) ∪ out_edges s
  ∧ in_edges (foldl (λ s b, connect s a b) s k)
    = list_to_set (pair a <$> k) ∪ in_edges s.
Proof.
  revert s. induction k as [|b k IH]; intros s Ha Hk; simpl.
  - by rewrite !union_empty_l_L.
  - apply Forall_cons in Hk as [Hb Hk].
    destruct (IH (connect s a b)) as [H1 H2].
    { by apply connect_dom. } { by apply live_connect. }
    rewrite H1, H2, out_edges_connect, in_edges_connect by done.
    split; set_solver.
Qed.

Lemma connect_node_row d s k :
  is_Some (s !! a) → live s k → symmetric s →
  connect_node (S (S (S d))) s a k = (foldl (λ s b, connect s a b) s k, None).
Proof.
  revert s. induction k as [|b k IH]; intros s Ha Hk Hs; [done|].
  apply Forall_cons in Hk as [Hb Hk].
  cbn [connect_node foldl]. rewrite add_output_connect; [|done|done|by rewrite Hs].
  apply IH.
  - by apply connect_dom.
  - by apply live_connect.
  - by apply symmetric_connect.
Qed.

End Wiring.

Lemma symmetric_connect_row a s k :
  is_Some (s !! a) → live s k → symmetric s →
  symmetric (foldl (λ s b, connect s a b) s k).
Proof.
  intros Ha Hk Hs. unfold symmetric in *.
  destruct (connect_row_edges a s k Ha Hk) as [-> ->]. by rewrite Hs.
Qed.

Lemma Layer_connect_to_all d s layer next_layer :
  live s layer → live s next_layer → symmetric s →
  Layer_connect_to (S (S (S d))) s layer next_layer
    = (connect_all s layer next_layer, None)
  ∧ symmetric (connect_all s layer next_layer)
  ∧ out_edges (connect_all s layer next_layer)
    = list_to_set (list_prod layer next_layer) ∪ out_edges s.
Proof.
  revert s. induction layer as [|a layer IH]; intros s Hl Hk Hs.
  - cbn. by rewrite union_empty_l_L.
  - apply Forall_cons in Hl as [Ha Hl].
    cbn [Layer_connect_to]. rewrite connect_node_row by done.
    destruct (IH (foldl (λ s b, connect s a b) s next_layer)) as (H1 & H2 & H3).
    { by apply connect_row_live. } { by apply connect_row_live. }
    { by apply symmetric_connect_row. }
    unfold connect_all in *. cbn [foldl list_prod].
    rewrite H1. split; [done|]. split; [done|].
    rewrite H3. destruct (connect_row_edges a s next_layer Ha Hk) as [-> _].
    rewrite list_to_set_app_L. set_solver.
Qed.

Lemma connect_node_present d s a k :
  (∀ b, b ∈ k → (a, b) ∈ out_edges s) →
  connect_node (S d) s a k = (s, None).
Proof.
  induction k as [|b k IH]; intros H; [done|].
  cbn [connect_node]. rewrite add_output_present by (apply H; left).
  apply IH. intros b' Hb'. apply H. by right.
Qed.

Lemma Layer_connect_to_present d s layer next_layer :
  (∀ a b, a ∈ layer → b ∈ next_layer → (a, b) ∈ out_edges s) →
  Layer_connect_to (S d) s layer next_layer = (s, None).
Proof.
  induction layer as [|a layer IH]; intros H; [done|].
  cbn [Layer_connect_to]. rewrite connect_node_present.
  - apply IH. intros a' b Ha' Hb. apply H; [by right|done].
  - intros b Hb. apply H; [left|done].
Qed.

(** C6. In a store whose edge sets are symmetric, as every store built
    by connecting new nodes is: [A.add_output(B)] called twice is the same
    as once, adds [B] to [A.outputs] and [A] to [B.inputs], which are
    [{B}] and [{A}] when [A] had no output and [B] no input, and leaves
    the edge sets symmetric; [Layer.connect_to] between two layers of
    distinct nodes adds the edges of the product of the layers to both
    edge sets, as many as the product of their sizes when none of them
    was there, and a second call changes nothing.  No call exceeds three
    frames. *)
Theorem connect_idempotent_symmetric_complete (d : nat) (s : gmap string Node)
    (layer next_layer : list string) :
  symmetric s →
  live s layer → live s next_layer → NoDup layer → NoDup next_layer →
  (∀ A B na nb, s !! A = Some na → s !! B = Some nb →
     let once := add_output (S (S (S d))) s A B in
     let twice := add_output (S (S (S d))) once.1 A B in
     once.2 = None ∧ twice = once
     ∧ symmetric once.1
     ∧ outputs <$> twice.1 !! A = Some ({[B]} ∪ outputs na)
     ∧ inputs <$> twice.1 !! B = Some ({[A]} ∪ inputs nb)
     ∧ (outputs na = ∅ → inputs nb = ∅ →
        outputs <$> twice.1 !! A = Some {[B]}
        ∧ inputs <$> twice.1 !! B = Some {[A]}))
  ∧ (let wired := Layer_connect_to (S (S (S d))) s layer next_layer in
     let product : gset (string * string) := list_to_set (list_prod layer next_layer) in
     wired.2 = None
     ∧ out_edges wired.1 = product ∪ out_edges s
     ∧ in_edges wired.1 = out_edges wired.1
     ∧ size product = (length layer * length next_layer)%nat
     ∧ (product ## out_edges s →
        size (out_edges wired.1 ∖ out_edges s) = (length layer * length next_layer)%nat)
     ∧ Layer_connect_to (S (S (S d))) wired.1 layer next_layer = wired).
Proof.
  intros Hs Hl Hk Dl Dk. split.
  - intros A B na nb Ha Hb. cbn zeta.
    rewrite add_output_connect; [|by eauto|by eauto|by rewrite Hs]. cbn [fst snd].
    rewrite add_output_present.
    2:{ rewrite out_edges_connect by eauto. set_solver. }
    cbn [fst snd].
    assert (outputs <$> connect s A B !! A = Some ({[B]} ∪ outputs na)) as HA.
    { rewrite lookup_connect, Ha. simpl. by rewrite decide_True. }
    assert (inputs <$> connect s A B !! B = Some ({[A]} ∪ inputs nb)) as HB.
    { rewrite lookup_connect, Hb. simpl. by rewrite decide_True. }
    split; [done|]. split; [done|].
    split; [apply symmetric_connect; by eauto|].
    split; [done|]. split; [done|].
    intros Eo Ei. rewrite HA, HB, Eo, Ei. by rewrite !union_empty_r_L.
  - destruct (Layer_connect_to_all d s layer next_layer Hl Hk Hs) as (-> & Hsym & He).
    cbn zeta. cbn [fst snd].
    assert (size (list_to_set (list_prod layer next_layer) : gset (string * string))
            = (length layer * length next_layer)%nat) as Hsize.
    { rewrite size_list_to_set by (by apply NoDup_list_prod). apply length_prod. }
    split; [done|]. split; [done|]. split; [done|]. split; [done|]. split.
    + intros Hdisj. rewrite He, <- Hsize. f_equal. set_solver.
    + apply Layer_connect_to_present. intros a b Ha Hb. rewrite He.
      apply elem_of_union_l, elem_of_list_to_set, list_elem_of_In, in_prod_iff.
      by rewrite <- !list_elem_of_In.
Qed.

(** * Properties of [process] *)

Lemma extends_refl w : extends w w.
Proof. by split. Qed.

Lemma extends_trans w1 w2 w3 : extends w1 w2 → extends w2 w3 → extends w1 w3.
Proof.
  intros [H1 H2] [H3 H4]. split; [by etrans|]. intros x. by rewrite H4, H2.
Qed.

Lemma extends_enter w n : extends w (enter w n).
Proof. split; [by apply prefix_app_r|done]. Qed.

(** Replacing a node by one with the same edge sets. *)
Lemma extends_replace w n nd nd' :
  nodes w !! n = Some nd → edges_of nd' = edges_of nd →
  extends w (World (<[n := nd']> (nodes w)) (calls w)).
Proof.
  intros Hn He. split; [done|]. intros x. simpl.
  destruct (decide (x = n)) as [->|].
  - rewrite lookup_insert_eq, Hn. simpl. by rewrite He.
  - by rewrite lookup_insert_ne.
Qed.

Lemma extends_alter w n f :
  (∀ nd, edges_of (f nd) = edges_of nd) →
  extends w (World (alter f n (nodes w)) (calls w)).
Proof.
  intros Hf. split; [done|]. intros x. simpl.
  destruct (decide (n = x)) as [->|].
  - rewrite lookup_alter_eq. destruct (nodes w !! x); simpl; [|done]. by rewrite Hf.
  - by rewrite lookup_alter_ne.
Qed.

Lemma extends_assign_data w o d : extends w (assign_data w o d).
Proof. by apply extends_alter. Qed.

Lemma push_extends proc copy self outs :
  (∀ w o, extends w (proc w o).1) →
  ∀ w, extends w (push proc copy self outs w).1.
Proof.
  intros Hproc. induction outs as [|o outs IH]; intros w; simpl.
  - apply extends_refl.
  - destruct (nodes w !! o); [|done].
    destruct (copy (data_of w self)) as [e|d]; [apply extends_refl|].
    pose proof (Hproc (assign_data w o d) o) as H.
    destruct (proc (assign_data w o d) o) as [w' [e|]]; simpl in H.
    + eapply extends_trans; [apply extends_assign_data|done].
    + eapply extends_trans; [apply extends_assign_data|].
      eapply extends_trans; [exact H|apply IH].
Qed.

Lemma extends_live w w' x :
  extends w w' → is_Some (nodes w' !! x) ↔ is_Some (nodes w !! x).
Proof.
  intros [_ H]. specialize (H x). rewrite <- !(fmap_is_Some edges_of). by rewrite H.
Qed.

(** The loop of the source propagates in the sense of [propagates]. *)
Lemma push_propagates proc self outs :
  ∀ w, propagates pushed proc self outs w (push proc copy_if_truthy self outs w).
Proof.
  induction outs as [|o outs IH]; intros w; simpl; [constructor|].
  destruct (nodes w !! o) as [no|] eqn:Ho.
  - fold (pushed (data_of w self)).
    destruct (proc (assign_data w o (pushed (data_of w self))) o) as [w' [e|]] eqn:E.
    + by apply propagates_raise.
    + eapply propagates_next; [done|exact E|apply IH].
  - by apply propagates_dead.
Qed.

(** A propagation that returns has processed every existing output, each
    one with all that it triggers before the next: the call log grows by
    one segment per output, in order, each headed by its output. *)
Lemma propagates_calls proc self outs w w' :
  (∀ w o, extends w (proc w o).1) →
  (∀ w o w'', is_Some (nodes w !! o) → proc w o = (w'', None) →
     ∃ rest, calls w'' = calls w ++ o :: rest) →
  propagates pushed proc self outs w (w', None) →
  depth_first (calls w) (calls w') (filter (λ o, is_Some (nodes w !! o)) outs).
Proof.
  unfold depth_first. intros Hext Hent H. remember (w', None) as r eqn:Hr.
  induction H as [w|o os w r Ho H IH|o os w w1 e Ho Hp|o os w w1 r Ho Hp H IH].
  - injection Hr as ->. exists []. simpl. rewrite app_nil_r. split; [done|constructor].
  - destruct (IH Hr) as (segs & H1 & H2). exists segs. split; [done|].
    rewrite filter_cons_False; [done|]. rewrite Ho. by intros [? ?].
  - done.
  - destruct (IH Hr) as (segs & H1 & H2).
    assert (is_Some (nodes (assign_data w o (pushed (data_of w self))) !! o)) as Ho'.
    { apply (extends_live w); [apply extends_assign_data|done]. }
    destruct (Hent _ _ _ Ho' Hp) as [rest Hrest].
    simpl in Hrest. exists ((o :: rest) :: segs). split.
    + rewrite H1, Hrest. simpl. by rewrite <- app_assoc.
    + rewrite filter_cons_True by done. constructor; [done|].
      erewrite list_filter_iff; [exact H2|]. intros x. simpl. symmetry.
      apply extends_live. eapply extends_trans; [apply extends_assign_data|].
      pose proof (Hext (assign_data w o (pushed (data_of w self))) o) as He.
      by rewrite Hp in He.
Qed.

Section ProcessFacts.

Variable order : gset string → list string.
Hypothesis order_perm : ∀ X : gset string, order X ≡ₚ elements X.

Lemma process_S d w self :
  process order (S d) w self =
    match nodes w !! self with
    | None => (w, None)
    | Some nd =>
        match kind nd with
        | BaseNode => (enter w self, Some NotImplementedError)
        | DataNode h => DataNode_process order (process order d) (enter w self) self nd h
        | ProcessingNode p =>
            ProcessingNode_process order (process order d) (enter w self) self nd p
        | MixerNode => MixerNode_process order (process order d) (enter w self) self nd
        end
    end.
Proof. reflexivity. Qed.

Lemma MixerNode_process_raises proc w self nd :
  (2 ≤ size (filter (λ n, n ∈ dom (nodes w)) (inputs nd)))%nat →
  MixerNode_process order proc w self nd = (w, Some TypeError).
Proof. intros H. unfold MixerNode_process. by rewrite bool_decide_eq_true_2. Qed.

Lemma MixerNode_process_few proc w self nd :
  ¬ (2 ≤ size (filter (λ n, n ∈ dom (nodes w)) (inputs nd)))%nat →
  MixerNode_process order proc w self nd = (w, None).
Proof. intros H. unfold MixerNode_process. by rewrite bool_decide_eq_false_2. Qed.

Lemma process_extends_enter d w self nd :
  (∀ w o, extends w (process order d w o).1) →
  nodes w !! self = Some nd →
  extends (enter w self) (process order (S d) w self).1.
Proof.
  intros IH Hn. rewrite process_S, Hn.
  destruct (kind nd) as [|h|p|]; simpl.
  - apply extends_refl.
  - unfold DataNode_process.
    eapply extends_trans; [|by apply push_extends].
    destruct (data nd); [by apply extends_alter|apply extends_refl].
  - unfold ProcessingNode_process.
    destruct (data nd), p; try (by apply push_extends).
    destruct (raised _).
    + by apply (extends_replace (enter w self) _ nd).
    + eapply extends_trans; [|by apply push_extends].
      apply (extends_replace (enter w self) _ nd); [done|]. by destruct (truthy _).
  - destruct (decide (2 ≤ size (filter (λ n, n ∈ dom (nodes (enter w self)))
                                  (inputs nd)))%nat).
    + rewrite MixerNode_process_raises by done. apply extends_refl.
    + rewrite MixerNode_process_few by done. apply extends_refl.
Qed.

Lemma process_extends d : ∀ w self, extends w (process order d w self).1.
Proof.
  induction d as [|d IH]; intros w self; [apply extends_refl|].
  destruct (nodes w !! self) as [nd|] eqn:Hn.
  - eapply extends_trans; [apply (extends_enter w self)|].
    by eapply process_extends_enter.
  - rewrite process_S, Hn. apply extends_refl.
Qed.

(** A call that returns has been entered: the log holds the node next. *)
Lemma process_enters d w self w' :
  is_Some (nodes w !! self) →
  process order d w self = (w', None) →
  ∃ rest, calls w' = calls w ++ self :: rest.
Proof.
  intros [nd Hn] H. destruct d as [|d]; [done|].
  destruct (process_extends_enter d w self nd (process_extends d) Hn) as [[rest Hp] _].
  rewrite H in Hp. simpl in Hp. exists rest. by rewrite Hp, <- app_assoc.
Qed.

Lemma order_elem_of (X : gset string) o : o ∈ order X ↔ o ∈ X.
Proof. by rewrite (order_perm X), elem_of_elements. Qed.

Lemma order_NoDup (X : gset string) : NoDup (order X).
Proof. rewrite (order_perm X). apply NoDup_elements. Qed.

Lemma process_calls_after_push d w0 self outs w' :
  propagates pushed (process order d) self outs w0 (w', None) →
  depth_first (calls w0) (calls w') (filter (λ o, is_Some (nodes w0 !! o)) outs).
Proof.
  apply propagates_calls.
  - apply process_extends.
  - intros w o w''. apply process_enters.
Qed.

(** C1, on the code. A [MixerNode] with two inputs or more raises
    [TypeError] where it subscripts its [WeakSet]: nothing is merged, its
    data is not set and no output is reached. *)
Theorem MixerNode_process_TypeError (d : nat) (w : world) (self : string) (nd : Node) :
  nodes w !! self = Some nd →
  kind nd = MixerNode →
  (2 ≤ size (filter (λ n, n ∈ dom (nodes w)) (inputs nd)))%nat →
  process order (S d) w self = (World (nodes w) (calls w ++ [self]), Some TypeError).
Proof.
  intros Hn Hk Hsz. rewrite process_S, Hn, Hk.
  by rewrite MixerNode_process_raises.
Qed.

(** C4, amended. [DataNode.process] appends the data to the history when
    data is present, then propagates: every output, once, in iteration
    order, receives [pushed] of the data (absent when the data is absent
    or empty) and is processed depth-first, until one raises. *)
Theorem DataNode_process_propagates (d : nat) (w : world) (self : string)
    (nd : Node) (h : list (option (gmap string value))) :
  nodes w !! self = Some nd →
  kind nd = DataNode h →
  let w1 :=
    World (match data nd with
           | Some dt => <[self := set_kind (DataNode (h ++ [Some dt])) nd]> (nodes w)
           | None => nodes w
           end) (calls w ++ [self]) in
  propagates pushed (process order d) self (order (outputs nd)) w1
    (process order (S d) w self)
  ∧ NoDup (order (outputs nd))
  ∧ (∀ o, o ∈ order (outputs nd) ↔ o ∈ outputs nd)
  ∧ ∀ w', process order (S d) w self = (w', None) →
      depth_first (calls w ++ [self]) (calls w')
        (filter (λ o, is_Some (nodes w !! o)) (order (outputs nd))).
Proof.
  intros Hn Hk w1.
  assert (process order (S d) w self
          = push (process order d) copy_if_truthy self (order (outputs nd)) w1) as ->.
  { rewrite process_S, Hn, Hk. unfold DataNode_process, w1. simpl.
    destruct (data nd); [|done].
    do 2 f_equal. apply map_eq. intros x. destruct (decide (x = self)) as [->|].
    - by rewrite lookup_alter_eq, lookup_insert_eq, Hn.
    - by rewrite lookup_alter_ne, lookup_insert_ne. }
  split; [apply push_propagates|].
  split; [apply order_NoDup|]. split; [apply order_elem_of|].
  intros w' Hw'. pose proof (push_propagates (process order d) self
                               (order (outputs nd)) w1) as Hp.
  rewrite Hw' in Hp. apply process_calls_after_push in Hp.
  erewrite list_filter_iff; [exact Hp|].
  intros x. unfold w1. simpl. destruct (data nd); [|done].
  destruct (decide (x = self)) as [->|].
  - rewrite lookup_insert_eq, Hn. by split; eauto.
  - by rewrite lookup_insert_ne.
Qed.

(** C3, amended. A [ProcessingNode] with data and a pipeline whose stages
    all have a [__name__] and change nothing in place runs the pipeline
    on its bag updated with the data; the data holds no ["trace"] that
    a tracing pipeline would extend in place.  The run raises nothing.
    If it returns nothing the data of the node stays as it was; in
    either case the node then propagates what it holds: every output,
    once, in iteration order, receives [pushed] of the data (absent when
    the data is empty) and is processed depth-first, until one raises.
    The only exception that leaves the node is one raised by an
    output. *)
Theorem ProcessingNode_process_propagates (d : nat) (w : world) (self : string)
    (nd : Node) (p : Pipe) (dt : gmap string value) :
  nodes w !! self = Some nd →
  kind nd = ProcessingNode (Some p) →
  data nd = Some dt →
  Forall named (functions p) →
  Forall pure (functions p) →
  (trace p = true → dt !! "trace" = None) →
  let out := Pipe_call (MkPipe (update (value_ p) dt) (trace p) (functions p)) in
  let nd1 :=
    MkNode (if truthy (returned out) then returned out else Some dt)
           (inputs nd) (outputs nd) (ProcessingNode (Some (pipe_after out))) in
  let w1 := World (<[self := nd1]> (nodes w)) (calls w ++ [self]) in
  raised out = None
  ∧ (returned out = None → data_of w1 self = Some dt)
  ∧ propagates pushed (process order d) self (order (outputs nd)) w1
      (process order (S d) w self)
  ∧ NoDup (order (outputs nd))
  ∧ (∀ o, o ∈ order (outputs nd) ↔ o ∈ outputs nd)
  ∧ ∀ w', process order (S d) w self = (w', None) →
      depth_first (calls w ++ [self]) (calls w')
        (filter (λ o, is_Some (nodes w !! o)) (order (outputs nd))).
Proof.
  intros Hn Hk Hd Hnamed _ _ out nd1 w1.
  assert (raised out = None) as Hraised by (by apply Pipe_call_named).
  assert (process order (S d) w self
          = push (process order d) copy_if_truthy self (order (outputs nd)) w1) as ->.
  { rewrite process_S, Hn, Hk. unfold ProcessingNode_process. rewrite Hd.
    fold out. rewrite Hraised. unfold w1, nd1. simpl. do 3 f_equal.
    unfold set_data, set_kind. destruct (truthy (returned out)); simpl; by rewrite ?Hd. }
  split; [done|]. split.
  { intros Hr. unfold data_of, w1, nd1. simpl. rewrite lookup_insert_eq. simpl.
    by rewrite Hr. }
  split; [apply push_propagates|].
  split; [apply order_NoDup|]. split; [apply order_elem_of|].
  intros w' Hw'. pose proof (push_propagates (process order d) self
                               (order (outputs nd)) w1) as Hp.
  rewrite Hw' in Hp. apply process_calls_after_push in Hp.
  erewrite list_filter_iff; [exact Hp|].
  intros x. unfold w1. simpl.
  destruct (decide (x = self)) as [->|].
  - rewrite lookup_insert_eq, Hn. by split; eauto.
  - by rewrite lookup_insert_ne.
Qed.

Lemma Layer_process_extends d layer : ∀ w, extends w (Layer_process order d w layer).1.
Proof.
  induction layer as [|n layer IH]; intros w; simpl; [apply extends_refl|].
  pose proof (process_extends d w n) as H1.
  destruct (process order d w n) as [w1 r]. simpl in H1.
  pose proof (IH w1) as H2.
  destruct (Layer_process order d w1 layer) as [w2 log]. simpl in *.
  by eapply extends_trans.
Qed.

Lemma Layer_process_app d l1 : ∀ l2 w,
  Layer_process order d w (l1 ++ l2) =
    let '(w1, log1) := Layer_process order d w l1 in
    let '(w2, log2) := Layer_process order d w1 l2 in
    (w2, log1 ++ log2).
Proof.
  induction l1 as [|n l1 IH]; intros l2 w; simpl.
  - by destruct (Layer_process order d w l2).
  - destruct (process order d w n) as [w1 r]. rewrite IH.
    destruct (Layer_process order d w1 l1) as [w2 log1].
    by destruct (Layer_process order d w2 l2) as [w3 log2].
Qed.

Lemma Layer_process_log d layer : ∀ w, (Layer_process order d w layer).2.*1 = layer.
Proof.
  induction layer as [|n layer IH]; intros w; simpl; [done|].
  destruct (process order d w n) as [w1 r]. specialize (IH w1).
  destruct (Layer_process order d w1 layer) as [w2 log]. simpl in IH. simpl.
  f_equal. exact IH.
Qed.

Lemma Layer_process_calls d layer : ∀ w n,
  n ∈ layer → is_Some (nodes w !! n) →
  n ∈ calls (Layer_process order (S d) w layer).1.
Proof.
  induction layer as [|m layer IH]; intros w n Hin Hn; [by apply elem_of_nil in Hin|].
  cbn [Layer_process].
  pose proof (process_extends (S d) w m) as Hext.
  destruct (process order (S d) w m) as [w1 r] eqn:E. simpl in Hext.
  pose proof (Layer_process_extends (S d) layer w1) as Hext2.
  apply elem_of_cons in Hin as [->|Hin].
  - destruct Hn as [nd Hn].
    pose proof (process_extends_enter d w m nd (process_extends d) Hn) as [Hpre _].
    rewrite E in Hpre. simpl in Hpre.
    destruct (Layer_process order (S d) w1 layer) as [w2 log]. simpl in *.
    destruct Hext2 as [Hpre2 _].
    eapply elem_of_prefix; [|exact Hpre2]. eapply elem_of_prefix; [|exact Hpre].
    apply elem_of_app. right. by apply list_elem_of_singleton.
  - specialize (IH w1 n Hin ltac:(by apply (extends_live w))).
    by destruct (Layer_process order (S d) w1 layer) as [w2 log].
Qed.

(** C8. [Layer.process] calls [process] on every node of the layer in
    stored order and records what each call raised, if anything; the
    nodes after a node are processed from the world that node left,
    whether it raised or not, so every existing node of the layer has
    its call entered. *)
Theorem Layer_process_isolates (d : nat) (w : world) (layer : list string) :
  (Layer_process order d w layer).2.*1 = layer
  ∧ (∀ l1 n l2, layer = l1 ++ n :: l2 →
       Layer_process order d w layer =
         let '(w1, log1) := Layer_process order d w l1 in
         let '(w2, r) := process order d w1 n in
         let '(w3, log2) := Layer_process order d w2 l2 in
         (w3, log1 ++ (n, r) :: log2))
  ∧ (∀ n, n ∈ layer → is_Some (nodes w !! n) →
       n ∈ calls (Layer_process order (S d) w layer).1).
Proof.
  split; [apply Layer_process_log|]. split; [|apply Layer_process_calls].
  intros l1 n l2 ->. rewrite Layer_process_app.
  destruct (Layer_process order d w l1) as [w1 log1]. simpl.
  destruct (process order d w1 n) as [w2 r].
  by destruct (Layer_process order d w2 l2) as [w3 log2].
Qed.

End ProcessFacts.

(** ** Recursion depth and iteration order *)

Lemma push_more_fuel proc1 proc2 copy self outs :
  (∀ w o w' r, proc1 w o = (w', r) → r ≠ Some RecursionError → proc2 w o = (w', r)) →
  ∀ w w' r, push proc1 copy self outs w = (w', r) → r ≠ Some RecursionError →
    push proc2 copy self outs w = (w', r).
Proof.
  intros H. induction outs as [|o outs IH]; intros w w' r; simpl; [done|].
  destruct (nodes w !! o); [|by apply IH].
  destruct (copy (data_of w self)) as [e|dt]; [done|].
  destruct (proc1 (assign_data w o dt) o) as [w1 [e|]] eqn:E.
  - intros [= <- <-] Hne. by rewrite (H _ _ _ _ E Hne).
  - intros Hp Hne. rewrite (H _ _ _ _ E) by done. by apply IH.
Qed.

(** A call that does not end in [RecursionError] gives the same result
    with any deeper stack. *)
Lemma process_more_fuel order d : ∀ w n w' r,
  process order d w n = (w', r) → r ≠ Some RecursionError →
  ∀ k, process order (k + d) w n = (w', r).
Proof.
  induction d as [|d IH]; intros w n w' r.
  - simpl. intros [= <- <-] Hne. by destruct Hne.
  - intros Hp Hne k. rewrite Nat.add_succ_r. rewrite process_S in *.
    destruct (nodes w !! n) as [nd|]; [|done].
    destruct (kind nd) as [|h|p|]; [done| | |].
    + unfold DataNode_process in *.
      eapply push_more_fuel; [|exact Hp|done]. intros; by apply IH.
    + unfold ProcessingNode_process in *.
      destruct (data nd), p; try (eapply push_more_fuel; [|exact Hp|done]; intros; by apply IH).
      destruct (raised _); [done|].
      eapply push_more_fuel; [|exact Hp|done]. intros; by apply IH.
    + destruct (decide (2 ≤ size (filter (λ x, x ∈ dom (nodes (enter w n)))
                                    (inputs nd)))%nat).
      * by rewrite MixerNode_process_raises in * by done.
      * by rewrite MixerNode_process_few in * by done.
Qed.

Lemma agree_extends order1 order2 w w' :
  agree order1 order2 w → extends w w' → agree order1 order2 w'.
Proof.
  intros Ha [_ He] x nd' Hx. specialize (He x). rewrite Hx in He.
  destruct (nodes w !! x) as [nd|] eqn:E; [|done].
  injection He as _ Ho. rewrite Ho. by apply (Ha x).
Qed.

Lemma push_agree (I : world → Prop) proc1 proc2 copy self outs :
  (∀ w w', I w → extends w w' → I w') →
  (∀ w o, I w → proc1 w o = proc2 w o) →
  (∀ w o, extends w (proc1 w o).1) →
  ∀ w, I w → push proc1 copy self outs w = push proc2 copy self outs w.
Proof.
  intros HI Heq Hext. induction outs as [|o outs IH]; intros w Hw; simpl; [done|].
  destruct (nodes w !! o); [|by apply IH].
  destruct (copy (data_of w self)) as [e|dt]; [done|].
  assert (I (assign_data w o dt)) as Hw1.
  { eapply HI; [exact Hw|apply extends_assign_data]. }
  rewrite <- (Heq _ _ Hw1). pose proof (Hext (assign_data w o dt) o) as He.
  destruct (proc1 (assign_data w o dt) o) as [w1 [e|]]; [done|].
  apply IH. by eapply HI.
Qed.

(** Only the order of the outputs that exist in the world matters. *)
Lemma process_agree order1 order2 d : ∀ w n,
  agree order1 order2 w → process order1 d w n = process order2 d w n.
Proof.
  induction d as [|d IH]; intros w n Hw; [done|].
  rewrite !process_S. destruct (nodes w !! n) as [nd|] eqn:Hn; [|done].
  assert (agree order1 order2 (enter w n)) as Hw0.
  { eapply agree_extends; [exact Hw|apply extends_enter]. }
  destruct (kind nd) as [|h|p|]; [done| | |].
  - unfold DataNode_process. rewrite <- (Hw n nd Hn).
    apply (push_agree (agree order1 order2)).
    + intros w1 w2 H1 H2. by eapply agree_extends.
    + intros w1 o H1. by apply IH.
    + apply process_extends.
    + destruct (data nd); [|exact Hw0].
      eapply agree_extends; [exact Hw0|]. by apply extends_alter.
  - unfold ProcessingNode_process. rewrite <- (Hw n nd Hn).
    assert (∀ w1, agree order1 order2 w1 →
              push (process order1 d) copy_if_truthy n (order1 (outputs nd)) w1
              = push (process order2 d) copy_if_truthy n (order1 (outputs nd)) w1) as Hpush.
    { intros w1 Hw1. apply (push_agree (agree order1 order2)); [| | |done].
      - intros w2 w3 H1 H2. by eapply agree_extends.
      - intros w2 o H1. by apply IH.
      - apply process_extends. }
    destruct (data nd), p; try (by apply Hpush).
    destruct (raised _); [done|]. apply Hpush.
    eapply agree_extends; [exact Hw0|].
    apply (extends_replace (enter w n) _ nd); [done|]. by destruct (truthy _).
  - destruct (decide (2 ≤ size (filter (λ x, x ∈ dom (nodes (enter w n)))
                                  (inputs nd)))%nat).
    + by rewrite !MixerNode_process_raises by done.
    + by rewrite !MixerNode_process_few by done.
Qed.

Lemma order_small (order : gset string → list string) (X : gset string) :
  (∀ X : gset string, order X ≡ₚ elements X) →
  (size X ≤ 1)%nat → order X = elements X.
Proof.
  intros Hp Hs. specialize (Hp X). unfold size, set_size in Hs. simpl in Hs.
  destruct (elements X) as [|x [|y l]]; simpl in Hs; [| |lia].
  - by apply Permutation_nil_r.
  - by apply Permutation_singleton_r.
Qed.

(** * The examples of the specification *)

Lemma chain_agree (order : gset string → list string) :
  (∀ X : gset string, order X ≡ₚ elements X) → agree order elements chain.
Proof.
  intros Hp x nd Hx. apply order_small; [done|].
  assert (map_Forall (λ _ nd, size (outputs nd) ≤ 1)%nat (nodes chain)) as H.
  { apply (bool_decide_unpack _). vm_compute. exact I. }
  by apply (H x).
Qed.

(** The run of the chain in the iteration order of [elements], with four
    frames. *)
Lemma chain_run :
  let r := process elements 4 chain "Input" in
  r.2 = None
  ∧ data_of r.1 "Adder" = Some {["passthrough" := VInt 15]}
  ∧ data_of r.1 "Squarer" = Some {["passthrough" := VInt 225]}
  ∧ kind <$> nodes r.1 !! "Output"
    = Some (DataNode [Some {["passthrough" := VInt 225]}]).
Proof.
  cbn zeta. split; [vm_compute; reflexivity|]. split; [vm_compute; reflexivity|].
  split; vm_compute; reflexivity.
Qed.

(** C9. In the chain Input(passthrough 10), Adder(+5), Squarer, Output,
    one [process()] of the entry layer, with four frames or more and any
    iteration order, leaves [{passthrough: 15}] in the adder,
    [{passthrough: 225}] in the squarer and the history
    [[{passthrough: 225}]] in the output node; nothing is raised. *)
Theorem linear_chain (order : gset string → list string) (d : nat) :
  (∀ X : gset string, order X ≡ₚ elements X) →
  let r := Layer_process order (S (S (S (S d)))) chain ["Input"] in
  data_of r.1 "Adder" = Some {["passthrough" := VInt 15]}
  ∧ data_of r.1 "Squarer" = Some {["passthrough" := VInt 225]}
  ∧ kind <$> nodes r.1 !! "Output"
    = Some (DataNode [Some {["passthrough" := VInt 225]}])
  ∧ r.2 = [("Input", None)].
Proof.
  intros Hp. cbn [Layer_process].
  rewrite (process_agree order elements) by by apply chain_agree.
  destruct chain_run as (Hr & Ha & Hs & Ho).
  destruct (process elements 4 chain "Input") as [w' r'] eqn:E.
  cbn [fst snd] in Hr, Ha, Hs, Ho. subst r'.
  replace (S (S (S (S d)))) with (d + 4)%nat by lia.
  rewrite (process_more_fuel elements 4 chain "Input" w' None E) by done.
  cbn zeta. cbn [fst snd]. exact (conj Ha (conj Hs (conj Ho eq_refl))).
Qed.

Lemma elements_perm (X : gset string) : elements X ≡ₚ elements X.
Proof. reflexivity. Qed.

Lemma base_first_perm (X : gset string) : base_first X ≡ₚ elements X.
Proof. apply reverse_Permutation. Qed.

(** C4 as stated fails.  A source holding the empty mapping holds data,
    yet its output is given [None]; and when the first output raises,
    the exception leaves the source and the second output is neither
    given data nor processed. *)
Lemma DataNode_push_counterexample :
  (let w := pair_world (fresh (Some ∅) (DataNode [])) in
   let r := process elements 2 w "Source" in
   data_of r.1 "Source" = Some ∅
   ∧ calls r.1 = ["Source"; "Sink"]
   ∧ data_of r.1 "Sink" = None
   ∧ data_of r.1 "Sink" ≠ data_of r.1 "Source")
  ∧ (let w := fan_world (fresh (Some {["a" := VInt 1]}) (DataNode [])) in
     let r := process base_first 2 w "Source" in
     base_first {["Base"; "Sink"]} = ["Base"; "Sink"]
     ∧ r.2 = Some NotImplementedError
     ∧ calls r.1 = ["Source"; "Base"]
     ∧ data_of r.1 "Sink" = None).
Proof.
  split; cbn zeta; repeat split; try (vm_compute; reflexivity).
  vm_compute. discriminate.
Qed.

(** C3 as stated fails.  After a failed run a node holding the empty
    mapping keeps it, yet its output is given [None]; when the first
    output raises, the exception leaves the node and the second output
    is neither given data nor processed; and when the stage that fails
    is a [functools.partial], the [AttributeError] of the [except] block
    leaves the run and the node, whose output is neither given data nor
    processed. *)
Lemma ProcessingNode_push_counterexample :
  (let w := pair_world (failing_transform ∅) in
   let r := process elements 2 w "Source" in
   data_of r.1 "Source" = Some ∅
   ∧ calls r.1 = ["Source"; "Sink"]
   ∧ data_of r.1 "Sink" = None
   ∧ data_of r.1 "Sink" ≠ data_of r.1 "Source")
  ∧ (let w := fan_world (failing_transform {["a" := VInt 1]}) in
     let r := process base_first 2 w "Source" in
     base_first {["Base"; "Sink"]} = ["Base"; "Sink"]
     ∧ data_of r.1 "Source" = Some {["a" := VInt 1]}
     ∧ r.2 = Some NotImplementedError
     ∧ calls r.1 = ["Source"; "Base"]
     ∧ data_of r.1 "Sink" = None)
  ∧ (let dt : gmap string value := {["passthrough" := VStr "ab"]} in
     let w := pair_world (nameless_transform dt) in
     let r := process elements 2 w "Source" in
     stage_fails partial_add_5 dt
     ∧ data_of r.1 "Source" = Some dt
     ∧ r.2 = Some AttributeError
     ∧ calls r.1 = ["Source"]
     ∧ data_of r.1 "Sink" = None).
Proof.
  split; [|split]; cbn zeta.
  - split; [vm_compute; reflexivity|]. split; [vm_compute; reflexivity|].
    split; [vm_compute; reflexivity|]. vm_compute. discriminate.
  - split; [vm_compute; reflexivity|]. split; [vm_compute; reflexivity|].
    split; [vm_compute; reflexivity|]. split; vm_compute; reflexivity.
  - split; [exact I|]. split; [vm_compute; reflexivity|].
    split; [vm_compute; reflexivity|]. split; vm_compute; reflexivity.
Qed.

(** * Instances *)

Lemma MixerNode_process_TypeError_witness :
  ∃ nd,
    nodes mixer_world !! "Mixer" = Some nd
    ∧ kind nd = MixerNode
    ∧ (2 ≤ size (filter (λ n, n ∈ dom (nodes mixer_world)) (inputs nd)))%nat
    ∧ process elements 1 mixer_world "Mixer"
      = (World (nodes mixer_world) (calls mixer_world ++ ["Mixer"]), Some TypeError).
Proof.
  eexists. split; [vm_compute; reflexivity|]. split; [reflexivity|].
  split; [vm_compute; lia|].
  eapply (MixerNode_process_TypeError elements 0 mixer_world "Mixer").
  - vm_compute. reflexivity.
  - reflexivity.
  - vm_compute. lia.
Defined.

Lemma DataNode_process_propagates_witness :
  let w := pair_world (fresh (Some {["a" := VInt 1]}) (DataNode [])) in
  ∃ nd h,
    nodes w !! "Source" = Some nd
    ∧ kind nd = DataNode h
    ∧ let w1 :=
        World (match data nd with
               | Some dt => <["Source" := set_kind (DataNode (h ++ [Some dt])) nd]> (nodes w)
               | None => nodes w
               end) (calls w ++ ["Source"]) in
      propagates pushed (process elements 1) "Source" (elements (outputs nd)) w1
        (process elements 2 w "Source")
      ∧ NoDup (elements (outputs nd))
      ∧ (∀ o, o ∈ elements (outputs nd) ↔ o ∈ outputs nd)
      ∧ ∀ w', process elements 2 w "Source" = (w', None) →
          depth_first (calls w ++ ["Source"]) (calls w')
            (filter (λ o, is_Some (nodes w !! o)) (elements (outputs nd))).
Proof.
  intros w. eexists _, _. split; [vm_compute; reflexivity|]. split; [reflexivity|].
  apply (DataNode_process_propagates elements elements_perm 1 w "Source").
  - vm_compute. reflexivity.
  - reflexivity.
Defined.

Lemma ProcessingNode_process_propagates_witness :
  let w := pair_world (failing_transform {["a" := VInt 1]}) in
  ∃ nd p dt,
    nodes w !! "Source" = Some nd
    ∧ kind nd = ProcessingNode (Some p)
    ∧ data nd = Some dt
    ∧ Forall named (functions p)
    ∧ Forall pure (functions p)
    ∧ (trace p = true → dt !! "trace" = None)
    ∧ let out := Pipe_call (MkPipe (update (value_ p) dt) (trace p) (functions p)) in
      let nd1 :=
        MkNode (if truthy (returned out) then returned out else Some dt)
               (inputs nd) (outputs nd) (ProcessingNode (Some (pipe_after out))) in
      let w1 := World (<["Source" := nd1]> (nodes w)) (calls w ++ ["Source"]) in
      raised out = None
      ∧ (returned out = None → data_of w1 "Source" = Some dt)
      ∧ propagates pushed (process elements 1) "Source" (elements (outputs nd)) w1
          (process elements 2 w "Source")
      ∧ NoDup (elements (outputs nd))
      ∧ (∀ o, o ∈ elements (outputs nd) ↔ o ∈ outputs nd)
      ∧ ∀ w', process elements 2 w "Source" = (w', None) →
          depth_first (calls w ++ ["Source"]) (calls w')
            (filter (λ o, is_Some (nodes w !! o)) (elements (outputs nd))).
Proof.
  intros w.
  assert (Forall named [returns_int]) as Hnamed.
  { constructor; [|constructor]. by exists "returns_int". }
  assert (Forall pure [returns_int]) as Hpure.
  { constructor; [|constructor]. intros kw. reflexivity. }
  eexists _, (MkPipe ∅ false [returns_int]), _.
  split; [vm_compute; reflexivity|].
  split; [reflexivity|]. split; [reflexivity|].
  split; [exact Hnamed|]. split; [exact Hpure|].
  split; [intros [=]|].
  apply (ProcessingNode_process_propagates elements elements_perm 1 w "Source").
  - vm_compute. reflexivity.
  - reflexivity.
  - reflexivity.
  - exact Hnamed.
  - exact Hpure.
  - intros [=].
Defined.

Lemma linear_chain_witness :
  let r := Layer_process elements 4 chain ["Input"] in
  data_of r.1 "Adder" = Some {["passthrough" := VInt 15]}
  ∧ data_of r.1 "Squarer" = Some {["passthrough" := VInt 225]}
  ∧ kind <$> nodes r.1 !! "Output"
    = Some (DataNode [Some {["passthrough" := VInt 225]}])
  ∧ r.2 = [("Input", None)].
Proof. exact (linear_chain elements 0 elements_perm). Defined.

Lemma connect_idempotent_symmetric_complete_witness :
  let s := two_layers_linked in
  let layer := ["A1"; "A2"] in
  let next_layer := ["B1"; "B2"; "B3"] in
  (symmetric s ∧ out_edges s = {[("B1", "A1")]}
   ∧ live s layer ∧ live s next_layer ∧ NoDup layer ∧ NoDup next_layer)
  ∧ (∀ A B na nb, s !! A = Some na → s !! B = Some nb →
       let once := add_output 3 s A B in
       let twice := add_output 3 once.1 A B in
       once.2 = None ∧ twice = once
       ∧ symmetric once.1
       ∧ outputs <$> twice.1 !! A = Some ({[B]} ∪ outputs na)
       ∧ inputs <$> twice.1 !! B = Some ({[A]} ∪ inputs nb)
       ∧ (outputs na = ∅ → inputs nb = ∅ →
          outputs <$> twice.1 !! A = Some {[B]}
          ∧ inputs <$> twice.1 !! B = Some {[A]}))
  ∧ (let wired := Layer_connect_to 3 s layer next_layer in
     let product : gset (string * string) := list_to_set (list_prod layer next_layer) in
     wired.2 = None
     ∧ out_edges wired.1 = product ∪ out_edges s
     ∧ in_edges wired.1 = out_edges wired.1
     ∧ size product = (length layer * length next_layer)%nat
     ∧ (product ## out_edges s →
        size (out_edges wired.1 ∖ out_edges s) = (length layer * length next_layer)%nat)
     ∧ Layer_connect_to 3 wired.1 layer next_layer = wired).
Proof.
  intros s layer next_layer.
  assert (symmetric s) as H1 by (vm_compute; reflexivity).
  assert (out_edges s = {[("B1", "A1")]}) as H2 by (vm_compute; reflexivity).
  assert (live s layer) as H3 by (repeat constructor; vm_compute; eauto).
  assert (live s next_layer) as H4 by (repeat constructor; vm_compute; eauto).
  assert (NoDup layer) as H5 by (apply (bool_decide_unpack _); vm_compute; exact I).
  assert (NoDup next_layer) as H6 by (apply (bool_decide_unpack _); vm_compute; exact I).
  split; [exact (conj H1 (conj H2 (conj H3 (conj H4 (conj H5 H6)))))|].
  exact (connect_idempotent_symmetric_complete 0 s layer next_layer H1 H3 H4 H5 H6).
Defined.

(** The first node of the layer raises; the layer catches it and the
    second node processes and propagates. *)
Example Layer_process_sibling :
  let r := Layer_process elements 3 mixed_layer_world ["Broken"; "Adder"] in
  r.2 = [("Broken", Some NotImplementedError); ("Adder", None)]
  ∧ calls r.1 = ["Broken"; "Adder"; "Output"]
  ∧ kind <$> nodes r.1 !! "Output"
    = Some (DataNode [Some {["passthrough" := VInt 15]}]).
Proof.
  cbn zeta. split; [vm_compute; reflexivity|].
  split; vm_compute; reflexivity.
Qed.
